(** * HangMan: the candidate-filtering engine of [main.py]

    A shallow embedding of the solver of [main.py] and the properties of
    its letter choice, its two narrowing filters and its game loop.

    Python values are modelled as follows.
    - A [str] is the list of its characters; a one-character [str]
      (a letter) is a character.
    - An [int] used as an index is a [Z]: a negative index counts from the
      end, an index outside [-len, len) raises [IndexError].
    - A [Counter] is an association list in insertion order, which is the
      order [most_common] breaks ties with.
    - A raised exception is the [Raise] case of [result].

    The vocabulary file, the prompts and the screen are outside the model:
    a game takes the vocabulary as a list of words, the word entered as
    [word], and the replies [get_input] returns as a function of the
    letter asked. *)

From Stdlib Require DecimalString.
From Stdlib Require Import Ascii String ZArith Arith Bool Lia List.
From Stdlib Require Import Permutation Sorted.
Import ListNotations.

Open Scope string_scope.
Open Scope list_scope.
Open Scope nat_scope.

(** ** Python values *)

Definition str := list ascii.

(** [IndexError] is the builtin exception of an index out of range.
    [ExhaustedError] is the error the specification names for the letter
    choice; no definition below raises it. *)
Inductive exn : Type :=
| IndexError
| ExhaustedError.

Inductive result (A : Type) : Type :=
| Ok (a : A)
| Raise (e : exn).

Arguments Ok {A} a.
Arguments Raise {A} e.

Definition bind {A B : Type} (m : result A) (k : A -> result B) : result B :=
  match m with
  | Ok a => k a
  | Raise e => Raise e
  end.

Notation "x <- m ;; k" := (bind m (fun x => k))
  (at level 61, m at next level, right associativity).

(** The position an index [i] denotes in a sequence of length [len]. *)
Definition norm_index (len : nat) (i : Z) : result nat :=
  if (0 <=? i)%Z then
    if (i <? Z.of_nat len)%Z then Ok (Z.to_nat i) else Raise IndexError
  else
    if (- Z.of_nat len <=? i)%Z then Ok (Z.to_nat (Z.of_nat len + i))
    else Raise IndexError.

(** [w[i]] *)
Definition getitem {A : Type} (w : list A) (i : Z) : result A :=
  n <- norm_index (length w) i ;;
  match nth_error w n with
  | Some x => Ok x
  | None => Raise IndexError
  end.

Fixpoint list_set {A : Type} (l : list A) (n : nat) (x : A) : list A :=
  match l, n with
  | [], _ => []
  | _ :: t, O => x :: t
  | h :: t, S m => h :: list_set t m x
  end.

(** [l[i] = x] *)
Definition setitem {A : Type} (l : list A) (i : Z) (x : A) : result (list A) :=
  n <- norm_index (length l) i ;;
  Ok (list_set l n x).

(** [enumerate(l)] *)
Fixpoint enumerate_from {A : Type} (n : Z) (l : list A) : list (Z * A) :=
  match l with
  | [] => []
  | x :: t => (n, x) :: enumerate_from (n + 1)%Z t
  end.

Definition enumerate {A : Type} (l : list A) : list (Z * A) :=
  enumerate_from 0%Z l.

(** [letter in w], for a one-character [letter] *)
Definition contains (w : str) (letter : ascii) : bool :=
  existsb (Ascii.eqb letter) w.

(** ** collections.Counter *)

Definition counter := list (ascii * nat).

(** [counts[c] = counts.get(c, 0) + 1]: an existing key keeps its place,
    a new key goes last. *)
Fixpoint incr (c : ascii) (counts : counter) : counter :=
  match counts with
  | [] => [(c, 1)]
  | (k, n) :: rest =>
      if Ascii.eqb k c then (k, S n) :: rest else (k, n) :: incr c rest
  end.

(** [Counter(iterable)] *)
Definition Counter (elems : list ascii) : counter :=
  fold_left (fun counts c => incr c counts) elems [].

(** [counts.pop(c, None)] *)
Definition pop (c : ascii) (counts : counter) : counter :=
  filter (fun kv => negb (Ascii.eqb (fst kv) c)) counts.

(** [sorted(items, key=itemgetter(1), reverse=True)]: a stable sort by
    descending count. Every stable sort computes the same list; this one
    inserts each item in front of the sorted rest, before the first item
    whose count is not greater. *)
Fixpoint insert_desc (x : ascii * nat) (l : counter) : counter :=
  match l with
  | [] => [x]
  | y :: rest =>
      if snd y <=? snd x then x :: y :: rest else y :: insert_desc x rest
  end.

Fixpoint most_common (counts : counter) : counter :=
  match counts with
  | [] => []
  | x :: rest => insert_desc x (most_common rest)
  end.

(** ** The functions of main.py *)

Definition HANGMEN : list string := [
"
  +---+
  |   |
      |
      |
      |
      |
=========";
"
  +---+
  |   |
  O   |
      |
      |
      |
=========";
"
  +---+
  |   |
  O   |
  |   |
      |
      |
=========";
"
  +---+
  |   |
  O   |
 /|   |
      |
      |
=========";
"
  +---+
  |   |
  O   |
 /|\  |
      |
      |
=========";
"
  +---+
  |   |
  O   |
 /|\  |
 /    |
      |
=========";
"
  +---+
  |   |
  O   |
 /|\  |
 / \  |
      |
========="].

Definition get_char_frequency (words : list str) : counter :=
  Counter (concat words).

Definition filter_by_word_size (words : list str) (size : nat) : list str :=
  filter (fun w => length w =? size) words.

Definition filter_by_excluded_letter (words : list str) (letter : ascii)
  : list str :=
  filter (fun w => negb (contains w letter)) words.

(** [all(w[i] == letter for i in indices)]: stops at the first index whose
    character differs; an index out of range before that raises. *)
Fixpoint all_at (w : str) (letter : ascii) (indices : list Z) : result bool :=
  match indices with
  | [] => Ok true
  | i :: rest =>
      ch <- getitem w i ;;
      if Ascii.eqb ch letter then all_at w letter rest else Ok false
  end.

Fixpoint filter_by_known_letter (words : list str) (letter : ascii)
  (indices : list Z) : result (list str) :=
  match words with
  | [] => Ok []
  | w :: rest =>
      keep <- all_at w letter indices ;;
      kept <- filter_by_known_letter rest letter indices ;;
      Ok (if keep then w :: kept else kept)
  end.

Definition most_common_letter (words : list str) (masked_word : list ascii)
  : result ascii :=
  let counts := get_char_frequency words in
  let counts := fold_left (fun counts c => pop c counts) masked_word counts in
  match most_common counts with
  | [] => Raise IndexError
  | item :: _ => Ok (fst item)
  end.

(** ** play_hangman *)

(** The variables of the game loop. [game_over] is [None] or the message. *)
Record game : Type := mkGame {
  words : list str;
  masked_word : list ascii;
  wrong_guesses : nat;
  game_over : option string
}.

(** The state before the loop, for a vocabulary and the word entered. *)
Definition start (vocabulary : list str) (word : str) : game :=
  let size := length word in
  {| words := filter_by_word_size vocabulary size;
     masked_word := repeat "_"%char size;
     wrong_guesses := 0;
     game_over := None |}.

Definition expected_indices (word : str) (letter : ascii) : list Z :=
  map fst (filter (fun ic => Ascii.eqb (snd ic) letter) (enumerate word)).

(** [for i in indices: masked_word[i] = letter] *)
Fixpoint reveal (masked : list ascii) (letter : ascii) (indices : list Z)
  : result (list ascii) :=
  match indices with
  | [] => Ok masked
  | i :: rest =>
      masked' <- setitem masked i letter ;;
      reveal masked' letter rest
  end.

(** The check for game over at the end of a turn. *)
Definition check_game_over (ws : list str) (masked : list ascii) (wrong : nat)
  : game :=
  if length HANGMEN - 1 <=? wrong then
    mkGame ws masked wrong (Some "GAME OVER!")
  else if length ws =? 1 then
    mkGame ws (nth 0 ws []) wrong (Some "I found your word!")
  else
    mkGame ws masked wrong None.

(** One iteration of the loop body. [human letter] is the index list
    [get_input] returns for the prompt about [letter]: with
    [choices = [expected_indices]] it accepts a reply only when it equals
    [expected_indices], which [truthful] states. *)
Definition turn (word : str) (human : ascii -> list Z) (st : game)
  : result game :=
  letter <- most_common_letter (words st) (masked_word st) ;;
  let indices := human letter in
  match indices with
  | _ :: _ =>
      ws <- filter_by_known_letter (words st) letter indices ;;
      masked <- reveal (masked_word st) letter indices ;;
      Ok (check_game_over ws masked (wrong_guesses st))
  | [] =>
      let ws := filter_by_excluded_letter (words st) letter in
      Ok (check_game_over ws (masked_word st) (wrong_guesses st + 1))
  end.

Definition truthful (word : str) (human : ascii -> list Z) : Prop :=
  forall letter, human letter = expected_indices word letter.

(** [while not game_over: ...], run for at most [turns] iterations. *)
Fixpoint play (turns : nat) (word : str) (human : ascii -> list Z) (st : game)
  : result game :=
  match turns with
  | O => Ok st
  | S n =>
      match game_over st with
      | None => st' <- turn word human st ;; play n word human st'
      | Some _ => Ok st
      end
  end.

Definition Failed (st : game) : Prop := game_over st = Some "GAME OVER!".
Definition Solved (st : game) : Prop :=
  game_over st = Some "I found your word!".

(** ** Notions the properties are stated with *)

(** [l1] is a subsequence of [l2]. *)
Inductive subseq {A : Type} : list A -> list A -> Prop :=
| subseq_nil : subseq [] []
| subseq_take x l1 l2 : subseq l1 l2 -> subseq (x :: l1) (x :: l2)
| subseq_drop x l1 l2 : subseq l1 l2 -> subseq l1 (x :: l2).

(** Position of the first [c] in [l]; [length l] when there is none. *)
Fixpoint index (c : ascii) (l : list ascii) : nat :=
  match l with
  | [] => 0
  | x :: t => if Ascii.eqb x c then 0 else S (index c t)
  end.

(** Total number of occurrences of [c] over the words. *)
Definition occurrences (ws : list str) (c : ascii) : nat :=
  count_occ ascii_dec (concat ws) c.

(** The character of [w] at a zero-based position equals [c]. *)
Definition has_at (w : str) (c : ascii) (i : nat) : bool :=
  match nth_error w i with
  | Some ch => Ascii.eqb ch c
  | None => false
  end.

Definition alphabet : list ascii :=
  list_ascii_of_string "abcdefghijklmnopqrstuvwxyz".

Definition s (x : string) : str := list_ascii_of_string x.

(** Zero-based positions of [c] in [w], ascending. *)
Fixpoint positions_from (n : nat) (w : str) (c : ascii) : list nat :=
  match w with
  | [] => []
  | x :: t =>
      if Ascii.eqb x c then n :: positions_from (S n) t c
      else positions_from (S n) t c
  end.

Definition positions (w : str) (c : ascii) : list nat := positions_from 0 w c.

Definition str_dec : forall x y : str, {x = y} + {x <> y} :=
  list_eq_dec ascii_dec.

(** The masked word of [word] once the letters [R] are revealed. *)
Definition mask (word : str) (R : list ascii) : list ascii :=
  map (fun ch => if contains R ch then ch else "_"%char) word.

(** The candidates agree with [word] wherever it has a letter of [R]. *)
Definition agree (word : str) (R : list ascii) (ws : list str) : Prop :=
  forall w i ch,
    In w ws -> In ch R -> nth_error word i = Some ch ->
    nth_error w i = Some ch.

(** The loop invariant of a game in progress on the secret [word], with
    [R] the letters revealed so far. *)
Record in_progress (word : str) (R : list ascii) (st : game) : Prop := {
  ip_running : game_over st = None;
  ip_secret : In word (words st);
  ip_once : count_occ str_dec (words st) word <= 1;
  ip_size : Forall (fun w => length w = length word) (words st);
  ip_mask : masked_word st = mask word R;
  ip_nodup : NoDup R;
  ip_incl : incl R word;
  ip_agree : agree word R (words st);
  ip_wrong : wrong_guesses st < 6;
  ip_open : exists ch, In ch word /\ ~ In ch R
}.

(** ** The input and output boundary *)

(** [ch.isspace()], for the characters of code below 256. *)
Definition isspace (ch : ascii) : bool :=
  let n := nat_of_ascii ch in
  ((9 <=? n) && (n <=? 13)) || ((28 <=? n) && (n <=? 32))
  || (n =? 133) || (n =? 160).

(** [reply.split()]: the maximal runs of characters that are not
    whitespace. [token] is the run being read. *)
Fixpoint split_from (token : str) (reply : str) : list str :=
  match reply with
  | [] => match token with [] => [] | _ :: _ => [token] end
  | ch :: rest =>
      if isspace ch then
        match token with
        | [] => split_from [] rest
        | _ :: _ => token :: split_from [] rest
        end
      else split_from (token ++ [ch]) rest
  end.

Definition split (reply : str) : list str := split_from [] reply.

(** [sorted(ints)]: ascending. *)
Fixpoint insert_asc (x : Z) (l : list Z) : list Z :=
  match l with
  | [] => [x]
  | y :: rest => if (x <=? y)%Z then x :: y :: rest else y :: insert_asc x rest
  end.

Fixpoint sorted (l : list Z) : list Z :=
  match l with
  | [] => []
  | x :: rest => insert_asc x (sorted rest)
  end.

(** [map(int, tokens)] consumed to its end: [None] when [int] raises on a
    token. The builtin [int] is a parameter, [None] where it raises
    [ValueError]. *)
Fixpoint map_int (int : str -> option Z) (tokens : list str)
  : option (list Z) :=
  match tokens with
  | [] => Some []
  | token :: rest =>
      match int token with
      | None => None
      | Some v =>
          match map_int int rest with
          | None => None
          | Some vs => Some (v :: vs)
          end
      end
  end.

Definition parse_ints (int : str -> option Z) (reply : str)
  : option (list Z) :=
  match map_int int (split reply) with
  | None => None
  | Some vals => Some (sorted vals)
  end.

Section GetInput.

Context {A : Type} (eq_dec : forall x y : A, {x = y} + {x <> y}).

(** The validation function [get_input] prepares: membership in
    [choices] when [choices] is a non-empty list, else [validate], else
    the function that accepts everything. *)
Definition prepare_validate (validate : option (A -> bool))
  (choices : option (list A)) : A -> bool :=
  match choices with
  | Some (c :: cs) => fun x => if in_dec eq_dec x (c :: cs) then true else false
  | _ =>
      match validate with
      | Some v => v
      | None => fun _ => true
      end
  end.

(** The loop of [get_input] over the replies [input] reads. [convert]
    gives [None] where it raises. The result is the value returned, the
    prompts shown and the replies left; [None] when the replies run out. *)
Fixpoint get_input_loop (prompt : string) (convert : str -> option A)
  (valid : A -> bool) (replies : list str)
  : option (A * list string * list str) :=
  match replies with
  | [] => None
  | reply :: rest =>
      let again :=
        match get_input_loop "Invalid input. Try again" convert valid rest with
        | Some (value, prompts, unread) =>
            Some (value, (prompt ++ ": ")%string :: prompts, unread)
        | None => None
        end in
      match convert reply with
      | Some value =>
          if valid value then Some (value, [(prompt ++ ": ")%string], rest)
          else again
      | None => again
      end
  end.

Definition get_input (prompt : string) (convert : str -> option A)
  (validate : option (A -> bool)) (choices : option (list A))
  (replies : list str) : option (A * list string * list str) :=
  get_input_loop prompt convert (prepare_validate validate choices) replies.

End GetInput.

(** A reply [get_input] does not return on: [convert] raises on it, or
    its value is not valid. *)
Definition rejected {A : Type} (convert : str -> option A)
  (valid : A -> bool) (reply : str) : Prop :=
  match convert reply with
  | Some value => valid value = false
  | None => True
  end.

(** [sep.join(l)] *)
Fixpoint join (sep : string) (l : list string) : string :=
  match l with
  | [] => EmptyString
  | [x] => x
  | x :: rest => (x ++ sep ++ join sep rest)%string
  end.

(** [str(n)] for a natural number. *)
Definition str_of_nat (n : nat) : string :=
  DecimalString.NilEmpty.string_of_uint (Nat.to_uint n).

(** The lines [print_screen] prints, after clearing the screen. *)
Definition print_screen (masked : list ascii) (wrong : nat)
  (message : option string) : result (list string) :=
  art <- getitem HANGMEN (Z.of_nat wrong) ;;
  Ok ([art;
       join " " (map (fun ch => String ch EmptyString) masked);
       join " " (map str_of_nat (seq 0 (length masked)))]
      ++ match message with
         | Some (String _ _ as m) => [m]
         | _ => []
         end).

(** The letters asked in at most [turns] iterations of the loop. *)
Fixpoint asked (turns : nat) (word : str) (human : ascii -> list Z)
  (st : game) : list ascii :=
  match turns with
  | O => []
  | S n =>
      match game_over st with
      | Some _ => []
      | None =>
          match most_common_letter (words st) (masked_word st) with
          | Raise _ => []
          | Ok letter =>
              letter :: match turn word human st with
                        | Ok st' => asked n word human st'
                        | Raise _ => []
                        end
          end
      end
  end.

(** Scenario 1 of the specification, run on the model. *)
Example scenario_1 :
  let vocabulary := [s "cat"; s "car"; s "can"; s "cap"] in
  let word := s "cat" in
  play 2 word (expected_indices word) (start vocabulary word)
  = Ok (mkGame vocabulary (s "ca_") 0 None)
  /\ play 3 word (expected_indices word) (start vocabulary word)
     = Ok (mkGame [s "cat"] (s "cat") 0 (Some "I found your word!")).
Proof. split; reflexivity. Qed.

(** A negative index counts from the end; an index out of range raises. *)
Example filter_by_known_letter_negative_index :
  filter_by_known_letter [s "ab"; s "ba"] "b" [(-1)%Z] = Ok [s "ab"].
Proof. reflexivity. Qed.

Example filter_by_known_letter_out_of_range :
  filter_by_known_letter [s "ab"; s "ba"] "b" [2%Z] = Raise IndexError.
Proof. reflexivity. Qed.

(** ** Indexing *)

Section Indexing.

Context {A : Type}.

Lemma norm_index_nat (len n : nat) :
  n < len -> norm_index len (Z.of_nat n) = Ok n.
Proof.
  intros Hn. unfold norm_index.
  destruct (Z.leb_spec 0 (Z.of_nat n)); [|lia].
  destruct (Z.ltb_spec (Z.of_nat n) (Z.of_nat len)); [|lia].
  now rewrite Nat2Z.id.
Qed.

Lemma norm_index_bound (len : nat) (i : Z) (n : nat) :
  norm_index len i = Ok n -> n < len.
Proof.
  unfold norm_index.
  destruct (Z.leb_spec 0 i).
  - destruct (Z.ltb_spec i (Z.of_nat len)); [|discriminate].
    intros [= <-]. lia.
  - destruct (Z.leb_spec (- Z.of_nat len) i); [|discriminate].
    intros [= <-]. lia.
Qed.

Lemma getitem_nat (w : list A) (n : nat) :
  getitem w (Z.of_nat n)
  = match nth_error w n with Some x => Ok x | None => Raise IndexError end.
Proof.
  unfold getitem. destruct (Nat.lt_ge_cases n (length w)) as [Hlt|Hge].
  - now rewrite norm_index_nat.
  - apply nth_error_None in Hge as Hnone. rewrite Hnone.
    unfold norm_index.
    destruct (Z.leb_spec 0 (Z.of_nat n)); [|lia].
    destruct (Z.ltb_spec (Z.of_nat n) (Z.of_nat (length w))); [lia|].
    reflexivity.
Qed.

Lemma list_set_length (l : list A) (n : nat) (x : A) :
  length (list_set l n x) = length l.
Proof.
  revert n. induction l as [|h t IH]; intros [|n]; simpl; auto.
Qed.

Lemma nth_error_list_set (l : list A) (n m : nat) (x : A) :
  n < length l ->
  nth_error (list_set l n x) m = if n =? m then Some x else nth_error l m.
Proof.
  revert n m. induction l as [|h t IH]; intros n m Hn; simpl in Hn; [lia|].
  destruct n as [|n], m as [|m]; simpl; auto.
  apply IH. lia.
Qed.

End Indexing.

(** ** Subsequences *)

Section Subseq.

Context {A : Type}.

Lemma subseq_refl (l : list A) : subseq l l.
Proof. induction l; constructor; auto. Qed.

Lemma subseq_length (l1 l2 : list A) :
  subseq l1 l2 -> length l1 <= length l2.
Proof. induction 1; simpl; lia. Qed.

Lemma subseq_In (l1 l2 : list A) (x : A) :
  subseq l1 l2 -> In x l1 -> In x l2.
Proof. induction 1; simpl; intuition. Qed.

Lemma filter_subseq (p : A -> bool) (l : list A) : subseq (filter p l) l.
Proof.
  induction l as [|x l IH]; simpl.
  - constructor.
  - destruct (p x); now constructor.
Qed.

End Subseq.

(** ** The two filters *)

Lemma all_at_nat (w : str) (c : ascii) (P : list nat) :
  (forall i, In i P -> i < length w) ->
  all_at w c (map Z.of_nat P) = Ok (forallb (has_at w c) P).
Proof.
  induction P as [|i P IH]; intros Hin; simpl.
  - reflexivity.
  - rewrite getitem_nat. unfold has_at at 1.
    destruct (nth_error w i) as [ch|] eqn:Hnth.
    + simpl. destruct (Ascii.eqb ch c); simpl; [|reflexivity].
      apply IH. intros j Hj. apply Hin. now right.
    + apply nth_error_None in Hnth.
      specialize (Hin i (or_introl eq_refl)). lia.
Qed.

Lemma filter_by_known_letter_nat (W : list str) (c : ascii) (P : list nat) :
  (forall w i, In w W -> In i P -> i < length w) ->
  filter_by_known_letter W c (map Z.of_nat P)
  = Ok (filter (fun w => forallb (has_at w c) P) W).
Proof.
  induction W as [|w W IH]; intros Hin; simpl.
  - reflexivity.
  - rewrite all_at_nat by (intros i Hi; apply Hin; simpl; auto).
    simpl. rewrite IH by (intros w' i Hw' Hi; apply Hin; simpl; auto).
    reflexivity.
Qed.

Lemma filter_by_known_letter_subseq (W : list str) (c : ascii) (P : list Z)
  (R : list str) :
  filter_by_known_letter W c P = Ok R -> subseq R W.
Proof.
  revert R. induction W as [|w W IH]; intros R; simpl.
  - intros [= <-]. constructor.
  - destruct (all_at w c P) as [keep|e]; simpl; [|discriminate].
    destruct (filter_by_known_letter W c P) as [kept|e]; simpl; [|discriminate].
    intros [= <-]. specialize (IH kept eq_refl).
    destruct keep; now constructor.
Qed.

Lemma filter_by_known_letter_keeps (W : list str) (c : ascii) (P : list Z)
  (R : list str) (w : str) :
  filter_by_known_letter W c P = Ok R ->
  In w W -> all_at w c P = Ok true -> In w R.
Proof.
  revert R. induction W as [|w' W IH]; intros R; simpl; [intros _ []|].
  destruct (all_at w' c P) as [keep|e] eqn:Hall; simpl; [|discriminate].
  destruct (filter_by_known_letter W c P) as [kept|e]; simpl; [|discriminate].
  intros [= <-] [->|Hin] Hw.
  - rewrite Hw in Hall. injection Hall as <-. now left.
  - specialize (IH kept eq_refl Hin Hw). destruct keep; simpl; auto.
Qed.

Lemma filter_by_known_letter_In (W : list str) (c : ascii) (P : list Z)
  (R : list str) (w : str) :
  filter_by_known_letter W c P = Ok R ->
  In w R -> In w W /\ all_at w c P = Ok true.
Proof.
  revert R. induction W as [|w' W IH]; intros R; simpl.
  - intros [= <-] [].
  - destruct (all_at w' c P) as [keep|e] eqn:Hall; simpl; [|discriminate].
    destruct (filter_by_known_letter W c P) as [kept|e]; simpl; [|discriminate].
    intros [= <-] Hin. specialize (IH kept eq_refl).
    destruct keep; simpl in Hin.
    + destruct Hin as [<-|Hin]; [auto|]. destruct (IH Hin); auto.
    + destruct (IH Hin); auto.
Qed.

Lemma contains_In (w : str) (c : ascii) : contains w c = true <-> In c w.
Proof.
  unfold contains. rewrite existsb_exists. split.
  - intros (x & Hx & Heq). apply Ascii.eqb_eq in Heq. now subst.
  - intros Hin. exists c. split; [assumption|apply Ascii.eqb_refl].
Qed.

Lemma filter_by_excluded_letter_In (W : list str) (c : ascii) (w : str) :
  In w (filter_by_excluded_letter W c) <-> In w W /\ ~ In c w.
Proof.
  unfold filter_by_excluded_letter. rewrite filter_In, negb_true_iff.
  rewrite <- contains_In. destruct (contains w c); intuition congruence.
Qed.

(** ** The check for game over *)

Lemma max_wrong_guesses : length HANGMEN - 1 = 6.
Proof. reflexivity. Qed.

Lemma words_check_game_over ws masked wrong :
  words (check_game_over ws masked wrong) = ws.
Proof.
  unfold check_game_over.
  destruct (_ <=? wrong); [reflexivity|]. now destruct (length ws =? 1).
Qed.

Lemma wrong_guesses_check_game_over ws masked wrong :
  wrong_guesses (check_game_over ws masked wrong) = wrong.
Proof.
  unfold check_game_over.
  destruct (_ <=? wrong); [reflexivity|]. now destruct (length ws =? 1).
Qed.

Lemma game_over_check_game_over ws masked wrong :
  game_over (check_game_over ws masked wrong)
  = if 6 <=? wrong then Some "GAME OVER!"
    else if length ws =? 1 then Some "I found your word!" else None.
Proof.
  unfold check_game_over. rewrite max_wrong_guesses.
  destruct (6 <=? wrong); [reflexivity|]. now destruct (length ws =? 1).
Qed.

(** A turn that returns ends in [check_game_over] of the narrowed
    candidates, through one of the two branches. *)
Lemma turn_inv word human st st' :
  turn word human st = Ok st' ->
  exists letter,
    most_common_letter (words st) (masked_word st) = Ok letter /\
    ((human letter <> [] /\
      exists ws masked,
        filter_by_known_letter (words st) letter (human letter) = Ok ws /\
        reveal (masked_word st) letter (human letter) = Ok masked /\
        st' = check_game_over ws masked (wrong_guesses st))
     \/
     (human letter = [] /\
      st' = check_game_over (filter_by_excluded_letter (words st) letter)
              (masked_word st) (wrong_guesses st + 1))).
Proof.
  unfold turn.
  destruct (most_common_letter (words st) (masked_word st)) as [letter|e];
    simpl; [|discriminate].
  intros H. exists letter. split; [reflexivity|].
  destruct (human letter) as [|i rest] eqn:Hh.
  - right. split; [reflexivity|]. now injection H as <-.
  - left. split; [discriminate|].
    destruct (filter_by_known_letter (words st) letter (i :: rest))
      as [ws|e]; cbn [bind] in H; [|discriminate].
    destruct (reveal (masked_word st) letter (i :: rest))
      as [masked|e]; cbn [bind] in H; [|discriminate].
    exists ws, masked. now injection H as <-.
Qed.

Lemma turn_words_subseq word human st st' :
  turn word human st = Ok st' -> subseq (words st') (words st).
Proof.
  intros H. apply turn_inv in H as (letter & _ & [(_ & ws & m & Hf & _ & ->)|(_ & ->)]);
    rewrite words_check_game_over.
  - eapply filter_by_known_letter_subseq; eassumption.
  - apply filter_subseq.
Qed.

Lemma play_last (k : nat) word human st :
  play (S k) word human st
  = st' <- play k word human st ;; play 1 word human st'.
Proof.
  revert st. induction k as [|k IH]; intros st.
  - simpl. destruct (game_over st); [reflexivity|].
    destruct (turn word human st); reflexivity.
  - change (play (S (S k)) word human st)
      with (match game_over st with
            | None => st' <- turn word human st ;; play (S k) word human st'
            | Some _ => Ok st
            end).
    change (play (S k) word human st)
      with (match game_over st with
            | None => st' <- turn word human st ;; play k word human st'
            | Some _ => Ok st
            end).
    destruct (game_over st) eqn:Hgo.
    + simpl. now rewrite Hgo.
    + destruct (turn word human st) as [st1|e]; simpl; [|reflexivity].
      apply IH.
Qed.

(** ** Properties of the filters and of the check for game over *)

(** C9. [filter_by_excluded_letter] is idempotent: excluding the same
    letter a second time changes nothing. *)
Theorem filter_by_excluded_letter_idempotent (W : list str) (c : ascii) :
  filter_by_excluded_letter (filter_by_excluded_letter W c) c
  = filter_by_excluded_letter W c.
Proof.
  unfold filter_by_excluded_letter.
  induction W as [|w W IH]; simpl; [reflexivity|].
  destruct (negb (contains w c)) eqn:Hw; simpl.
  - rewrite Hw. now f_equal.
  - exact IH.
Qed.

(** C10. With an empty index list [filter_by_known_letter] returns its word
    list unchanged, and a turn never calls it so: when the reply to the
    guessed letter is empty, the turn narrows with
    [filter_by_excluded_letter] and counts a wrong guess. *)
Theorem filter_by_known_letter_no_indices :
  (forall (W : list str) (c : ascii), filter_by_known_letter W c [] = Ok W)
  /\
  (forall word human st letter,
      most_common_letter (words st) (masked_word st) = Ok letter ->
      human letter = [] ->
      turn word human st
      = Ok (check_game_over (filter_by_excluded_letter (words st) letter)
              (masked_word st) (wrong_guesses st + 1))).
Proof.
  split.
  - intros W c. induction W as [|w W IH]; simpl; [reflexivity|].
    now rewrite IH.
  - intros word human st letter Hl Hh. unfold turn. rewrite Hl. simpl.
    now rewrite Hh.
Qed.

Lemma filter_by_known_letter_no_indices_witness :
  let word := s "dog" in
  let st := mkGame [s "cat"; s "dog"] (s "___") 0 None in
  turn word (expected_indices word) st
  = Ok (mkGame [s "dog"] (s "dog") 1 (Some "I found your word!")).
Proof.
  intros word st.
  rewrite (proj2 filter_by_known_letter_no_indices word
             (expected_indices word) st "c"%char);
    reflexivity.
Defined.

(** C3. When a turn ends with the wrong-guess counter at the maximum (6,
    the number of gallows stages minus one) and exactly one candidate left,
    the game is failed, not solved: the failure check comes first. *)
Theorem failed_checked_before_solved word human st st' :
  turn word human st = Ok st' ->
  length HANGMEN - 1 <= wrong_guesses st' ->
  length (words st') = 1 ->
  length HANGMEN - 1 = 6 /\ Failed st' /\ ~ Solved st'.
Proof.
  intros Hturn Hwrong Hone. split; [reflexivity|].
  rewrite max_wrong_guesses in Hwrong.
  assert (Hgo : exists ws masked wrong, st' = check_game_over ws masked wrong).
  { apply turn_inv in Hturn
      as (letter & _ & [(_ & ws & m & _ & _ & ->)|(_ & ->)]); eauto. }
  destruct Hgo as (ws & masked & wrong & ->).
  rewrite wrong_guesses_check_game_over in Hwrong.
  unfold Failed, Solved. rewrite game_over_check_game_over.
  apply Nat.leb_le in Hwrong. rewrite Hwrong.
  split; [reflexivity|discriminate].
Qed.

Lemma failed_checked_before_solved_witness :
  let word := s "dog" in
  let st := mkGame [s "cat"; s "dog"] (s "___") 5 None in
  let st' := mkGame [s "dog"] (s "___") 6 (Some "GAME OVER!") in
  turn word (expected_indices word) st = Ok st'
  /\ length HANGMEN - 1 = 6 /\ Failed st' /\ ~ Solved st'.
Proof.
  intros word st st'. split; [reflexivity|].
  apply (failed_checked_before_solved word (expected_indices word) st st').
  - reflexivity.
  - simpl. lia.
  - reflexivity.
Defined.

(** C4. For in-range zero-based indices [P], [filter_by_known_letter]
    returns, in their original order, exactly the words that have [c] at
    every index of [P]; such a word is kept even when it has [c] at a
    further index outside [P]. *)
Theorem filter_by_known_letter_exact (W : list str) (c : ascii) (P : list nat) :
  (forall w i, In w W -> In i P -> i < length w) ->
  filter_by_known_letter W c (map Z.of_nat P)
  = Ok (filter (fun w => forallb (has_at w c) P) W)
  /\
  (forall w j,
      In w W -> (forall i, In i P -> nth_error w i = Some c) ->
      ~ In j P -> nth_error w j = Some c ->
      In w (filter (fun w => forallb (has_at w c) P) W)).
Proof.
  intros Hrange. split.
  - now apply filter_by_known_letter_nat.
  - intros w j Hw Hall _ _. apply filter_In. split; [assumption|].
    apply forallb_forall. intros i Hi. unfold has_at.
    rewrite (Hall i Hi). apply Ascii.eqb_refl.
Qed.

Lemma filter_by_known_letter_exact_witness :
  let W := [s "banana"; s "cobalt"; s "bandit"] in
  filter_by_known_letter W "a" (map Z.of_nat [1])
  = Ok [s "banana"; s "bandit"]
  /\ In (s "banana") [s "banana"; s "bandit"].
Proof.
  intros W.
  assert (Hrange : forall w i, In w W -> In i [1] -> i < length w).
  { intros w i Hw [<-|[]].
    destruct Hw as [<-|[<-|[<-|[]]]]; simpl; lia. }
  destruct (filter_by_known_letter_exact W "a" [1] Hrange) as [Heq Hextra].
  split.
  - exact Heq.
  - apply (Hextra (s "banana") 3).
    + simpl; auto.
    + intros i [<-|[]]. reflexivity.
    + simpl. intros [H|[]]. discriminate.
    + reflexivity.
Defined.

(** C8. Both filters return subsequences of their word list:
    [filter_by_known_letter] whenever it returns, which it does for
    in-range indices, and [filter_by_excluded_letter] always. Hence the
    candidate list after one more turn of a game is no longer than
    before it. *)
Theorem narrowing_never_grows :
  (forall W c P R, filter_by_known_letter W c P = Ok R -> subseq R W)
  /\
  (forall W c (P : list nat),
      (forall w i, In w W -> In i P -> i < length w) ->
      exists R, filter_by_known_letter W c (map Z.of_nat P) = Ok R
                /\ subseq R W)
  /\
  (forall W c, subseq (filter_by_excluded_letter W c) W)
  /\
  (forall k word human st0 st st',
      play k word human st0 = Ok st ->
      play (S k) word human st0 = Ok st' ->
      subseq (words st') (words st)
      /\ length (words st') <= length (words st)).
Proof.
  split; [|split; [|split]].
  - exact filter_by_known_letter_subseq.
  - intros W c P Hrange. eexists. split.
    + now apply filter_by_known_letter_nat.
    + apply filter_subseq.
  - intros W c. apply filter_subseq.
  - intros k word human st0 st st' Hk HSk.
    rewrite play_last, Hk in HSk. simpl in HSk.
    assert (Hsub : subseq (words st') (words st)).
    { destruct (game_over st).
      - injection HSk as <-. apply subseq_refl.
      - destruct (turn word human st) as [st1|e] eqn:Hturn;
          simpl in HSk; [|discriminate].
        injection HSk as <-. eapply turn_words_subseq; eassumption. }
    split; [assumption|]. now apply subseq_length.
Qed.

Lemma narrowing_never_grows_witness :
  let word := s "cat" in
  let vocabulary := [s "dog"; s "cat"; s "bat"] in
  subseq [s "cat"; s "bat"] vocabulary
  /\ (exists R, filter_by_known_letter vocabulary "a" (map Z.of_nat [1]) = Ok R
                /\ subseq R vocabulary)
  /\ (length [s "cat"; s "bat"] <= length vocabulary).
Proof.
  intros word vocabulary.
  destruct narrowing_never_grows as (Hknown & Hrange & _ & Hplay).
  split; [|split].
  - apply (Hknown vocabulary "a"%char [1%Z]). reflexivity.
  - apply (Hrange vocabulary "a"%char [1]).
    intros w i Hw [<-|[]].
    destruct Hw as [<-|[<-|[<-|[]]]]; simpl; lia.
  - apply (Hplay 0 word (expected_indices word) (start vocabulary word)
             (start vocabulary word)
             (mkGame [s "cat"; s "bat"] (s "_a_") 0 None));
      reflexivity.
Defined.

(** ** First positions *)

Lemma index_le_length (k : ascii) (l : list ascii) : index k l <= length l.
Proof.
  induction l as [|x l IH]; simpl; [lia|].
  destruct (Ascii.eqb x k); lia.
Qed.

Lemma index_lt_In (k : ascii) (l : list ascii) :
  index k l < length l <-> In k l.
Proof.
  induction l as [|x l IH]; simpl.
  - split; [lia|tauto].
  - destruct (Ascii.eqb_spec x k) as [->|Hne].
    + split; [auto|lia].
    + rewrite <- Nat.succ_lt_mono, IH. intuition congruence.
Qed.

Lemma index_app (k : ascii) (l1 l2 : list ascii) :
  index k (l1 ++ l2)
  = if index k l1 <? length l1 then index k l1 else length l1 + index k l2.
Proof.
  induction l1 as [|x l1 IH]; simpl; [reflexivity|].
  destruct (Ascii.eqb x k); [reflexivity|].
  rewrite IH. change (S (index k l1) <? S (length l1))
    with (index k l1 <? length l1).
  now destruct (index k l1 <? length l1).
Qed.

Lemma index_not_In (k : ascii) (l : list ascii) :
  ~ In k l -> index k l = length l.
Proof.
  intros Hn. rewrite <- index_lt_In in Hn.
  pose proof (index_le_length k l). lia.
Qed.

(** Filtering keeps the order of first positions, for a key it keeps. *)
Lemma index_filter (q : ascii -> bool) (k1 k2 : ascii) (l : list ascii) :
  q k2 = true ->
  index k1 (filter q l) < index k2 (filter q l) ->
  index k1 l < index k2 l.
Proof.
  intros Hq. induction l as [|x l IH]; simpl; [lia|].
  destruct (Ascii.eqb_spec x k1) as [->|Hne1].
  - destruct (Ascii.eqb_spec k1 k2) as [->|Hne2].
    + rewrite Hq. simpl. rewrite Ascii.eqb_refl. lia.
    + lia.
  - destruct (Ascii.eqb_spec x k2) as [->|Hne2].
    + rewrite Hq. simpl. rewrite Ascii.eqb_refl. lia.
    + destruct (q x); simpl.
      * apply Ascii.eqb_neq in Hne1, Hne2. rewrite Hne1, Hne2. lia.
      * lia.
Qed.

(** ** Counter *)

Lemma keys_incr (c : ascii) (d : counter) :
  map fst (incr c d)
  = if contains (map fst d) c then map fst d else map fst d ++ [c].
Proof.
  unfold contains. induction d as [|[k n] d IH]; simpl; [reflexivity|].
  rewrite (Ascii.eqb_sym c k).
  destruct (Ascii.eqb k c); simpl; [reflexivity|].
  rewrite IH. now destruct (existsb (Ascii.eqb c) (map fst d)).
Qed.

Lemma Counter_snoc (l : list ascii) (c : ascii) :
  Counter (l ++ [c]) = incr c (Counter l).
Proof. unfold Counter. now rewrite fold_left_app. Qed.

Lemma Counter_keys_In (l : list ascii) (k : ascii) :
  In k (map fst (Counter l)) <-> In k l.
Proof.
  induction l as [|c l IH] using rev_ind; [simpl; tauto|].
  rewrite Counter_snoc, keys_incr, in_app_iff. simpl.
  destruct (contains (map fst (Counter l)) c) eqn:Hc.
  - apply contains_In in Hc. rewrite IH in *.
    intuition (subst; auto).
  - rewrite in_app_iff, IH. simpl. tauto.
Qed.

Lemma Counter_keys_NoDup (l : list ascii) : NoDup (map fst (Counter l)).
Proof.
  induction l as [|c l IH] using rev_ind; [constructor|].
  rewrite Counter_snoc, keys_incr.
  destruct (contains (map fst (Counter l)) c) eqn:Hc; [assumption|].
  assert (Hn : ~ In c (map fst (Counter l))).
  { rewrite <- contains_In, Hc. discriminate. }
  apply NoDup_rev in IH. rewrite <- (rev_involutive (_ ++ [c])).
  apply NoDup_rev. rewrite rev_app_distr. simpl.
  constructor; [|assumption]. now rewrite <- in_rev.
Qed.

(** One more [c] counted: the entries agree with the new counts [f']
    when they agreed with the old ones [f]. *)
Lemma incr_values (f f' : ascii -> nat) (c : ascii) (d : counter) :
  NoDup (map fst d) ->
  (forall kv, In kv d -> snd kv = f (fst kv)) ->
  (~ In c (map fst d) -> f c = 0) ->
  f' c = S (f c) ->
  (forall k, k <> c -> f' k = f k) ->
  forall kv, In kv (incr c d) -> snd kv = f' (fst kv).
Proof.
  intros Hnd Hval Hnew Hc Hother.
  induction d as [|[k n] d IH]; simpl.
  - intros kv [<-|[]]. simpl. rewrite Hc, Hnew; auto.
  - inversion Hnd as [|? ? Hk Hnd']; subst.
    destruct (Ascii.eqb_spec k c) as [->|Hne].
    + intros kv [<-|Hin]; simpl.
      * rewrite Hc. f_equal. apply (Hval (c, n)). now left.
      * rewrite Hother; [apply Hval; now right|].
        intros Heq. apply Hk. apply in_map_iff. exists kv. auto.
    + intros kv [<-|Hin]; simpl.
      * rewrite (Hother k Hne). apply (Hval (k, n)). now left.
      * apply IH; auto.
        -- intros kv' Hin'. apply Hval. now right.
        -- intros Hn. apply Hnew. simpl. intros [Heq|Hin']; auto.
Qed.

Lemma Counter_values (l : list ascii) (kv : ascii * nat) :
  In kv (Counter l) -> snd kv = count_occ ascii_dec l (fst kv).
Proof.
  revert kv. induction l as [|c l IH] using rev_ind; [intros kv []|].
  rewrite Counter_snoc.
  apply (incr_values (count_occ ascii_dec l)); auto.
  - apply Counter_keys_NoDup.
  - rewrite Counter_keys_In. apply count_occ_not_In.
  - rewrite count_occ_app. simpl.
    destruct (ascii_dec c c); [lia|congruence].
  - intros k Hk. rewrite count_occ_app. simpl.
    destruct (ascii_dec c k); [congruence|lia].
Qed.

Lemma Counter_In (l : list ascii) (k : ascii) :
  In k l -> In (k, count_occ ascii_dec l k) (Counter l).
Proof.
  intros Hin. apply Counter_keys_In, in_map_iff in Hin as ([k' n] & Hk & Hin).
  simpl in Hk. subst k'. pose proof (Counter_values l (k, n) Hin) as Hv.
  simpl in Hv. now subst n.
Qed.

(** The keys of a [Counter] stand in the order of their first positions
    in the counted sequence. *)
Lemma Counter_order (l : list ascii) (k1 k2 : ascii) :
  index k1 (map fst (Counter l)) < index k2 (map fst (Counter l)) ->
  index k1 l < index k2 l.
Proof.
  revert k1 k2. induction l as [|c l IH] using rev_ind; [simpl; lia|].
  intros k1 k2. rewrite Counter_snoc, keys_incr.
  pose proof (index_lt_In k1 (map fst (Counter l))) as Hk1.
  pose proof (index_lt_In k2 (map fst (Counter l))) as Hk2.
  rewrite Counter_keys_In, <- index_lt_In in Hk1, Hk2.
  pose proof (index_le_length k1 (map fst (Counter l))).
  pose proof (index_le_length k2 (map fst (Counter l))).
  pose proof (index_le_length k1 l). pose proof (index_le_length k2 l).
  specialize (IH k1 k2).
  rewrite !(index_app _ l). simpl.
  destruct (contains (map fst (Counter l)) c) eqn:Hc.
  - intros Hlt.
    destruct (Nat.ltb_spec (index k1 l) (length l));
      destruct (Nat.ltb_spec (index k2 l) (length l));
      destruct (Ascii.eqb c k1); destruct (Ascii.eqb c k2); lia.
  - rewrite !(index_app _ (map fst (Counter l))). simpl.
    destruct (Nat.ltb_spec (index k1 (map fst (Counter l)))
                (length (map fst (Counter l))));
      destruct (Nat.ltb_spec (index k2 (map fst (Counter l)))
                  (length (map fst (Counter l))));
      destruct (Nat.ltb_spec (index k1 l) (length l));
      destruct (Nat.ltb_spec (index k2 l) (length l));
      destruct (Ascii.eqb c k1); destruct (Ascii.eqb c k2); lia.
Qed.

(** ** The letter choice *)

Lemma filter_filter {A : Type} (p q : A -> bool) (l : list A) :
  filter p (filter q l) = filter (fun x => q x && p x) l.
Proof.
  induction l as [|x l IH]; simpl; [reflexivity|].
  destruct (q x); simpl; [|assumption].
  destruct (p x); now rewrite IH.
Qed.

(** Popping every character of the masked word leaves, in their order,
    the entries whose key is not in it. *)
Lemma pop_all (M : list ascii) (d : counter) :
  fold_left (fun counts c => pop c counts) M d
  = filter (fun kv => negb (contains M (fst kv))) d.
Proof.
  revert d. induction M as [|m M IH]; intros d; simpl.
  - induction d as [|kv d IHd]; simpl; [reflexivity|]. now f_equal.
  - rewrite IH. unfold pop. rewrite filter_filter.
    apply filter_ext. intros kv. unfold contains. simpl.
    now rewrite negb_orb.
Qed.

Lemma keys_filter (q : ascii -> bool) (d : counter) :
  map fst (filter (fun kv => q (fst kv)) d) = filter q (map fst d).
Proof.
  induction d as [|kv d IH]; simpl; [reflexivity|].
  destruct (q (fst kv)); simpl; now rewrite IH.
Qed.

Lemma insert_desc_not_nil (x : ascii * nat) (l : counter) :
  insert_desc x l <> [].
Proof.
  destruct l as [|y l]; simpl; [discriminate|].
  destruct (snd y <=? snd x); discriminate.
Qed.

Lemma most_common_nil (d : counter) : most_common d = [] -> d = [].
Proof.
  destruct d as [|x d]; simpl; [reflexivity|].
  intros H. now apply insert_desc_not_nil in H.
Qed.

(** The head of [most_common] is the first entry of maximal count. *)
Lemma most_common_head (d : counter) (c : ascii) (n : nat) (rest : counter) :
  most_common d = (c, n) :: rest ->
  exists A B,
    d = A ++ (c, n) :: B
    /\ Forall (fun kv => snd kv < n) A
    /\ Forall (fun kv => snd kv <= n) B.
Proof.
  revert c n rest. induction d as [|x d IH]; intros c n rest; simpl.
  - discriminate.
  - destruct (most_common d) as [|[c0 n0] sorted] eqn:Hd; simpl.
    + apply most_common_nil in Hd. subst d. intros [= -> _].
      exists [], []. repeat split; constructor.
    + destruct (IH c0 n0 sorted eq_refl) as (A & B & -> & HA & HB).
      destruct (Nat.leb_spec n0 (snd x)) as [Hle|Hlt].
      * intros [= -> _]. simpl in Hle.
        exists [], (A ++ (c0, n0) :: B). repeat split; [constructor|].
        apply Forall_app. split.
        -- eapply Forall_impl; [|exact HA]. simpl. intros; lia.
        -- constructor; [simpl; lia|].
           eapply Forall_impl; [|exact HB]. simpl. intros; lia.
      * intros [= -> -> _].
        exists (x :: A), B. repeat split; [|assumption].
        constructor; assumption.
Qed.

Lemma most_common_letter_eq (W : list str) (M : list ascii) :
  most_common_letter W M
  = match most_common
            (filter (fun kv => negb (contains M (fst kv)))
               (Counter (concat W))) with
    | [] => Raise IndexError
    | item :: _ => Ok (fst item)
    end.
Proof.
  unfold most_common_letter, get_char_frequency. now rewrite pop_all.
Qed.

Lemma not_contains (M : list ascii) (c : ascii) :
  negb (contains M c) = true <-> ~ In c M.
Proof.
  rewrite negb_true_iff, <- contains_In.
  destruct (contains M c); intuition congruence.
Qed.

(** What [most_common_letter] returns: an unrevealed letter of the words,
    of maximal count among the unrevealed letters, and scanned before
    every other unrevealed letter of the same count. *)
Lemma most_common_letter_spec (W : list str) (M : list ascii) (c : ascii) :
  most_common_letter W M = Ok c ->
  ~ In c M
  /\ In c (concat W)
  /\ (forall c', ~ In c' M -> occurrences W c' <= occurrences W c)
  /\ (forall c', ~ In c' M -> c' <> c ->
                 occurrences W c' = occurrences W c ->
                 index c (concat W) < index c' (concat W)).
Proof.
  rewrite most_common_letter_eq. unfold occurrences.
  set (l := concat W).
  set (q := fun k => negb (contains M k)).
  change (filter _ (Counter l)) with (filter (fun kv => q (fst kv)) (Counter l)).
  destruct (most_common _) as [|[c0 n] rest] eqn:Hmc; [discriminate|].
  simpl. intros [= ->].
  apply most_common_head in Hmc as (A & B & Hd & HA & HB).
  assert (Hin1 : forall kv, In kv (filter (fun kv => q (fst kv)) (Counter l))
                            <-> In kv A \/ kv = (c, n) \/ In kv B).
  { intros kv. rewrite Hd, in_app_iff. simpl. intuition. }
  assert (Hcn : In (c, n) (Counter l) /\ q c = true).
  { apply (proj1 (filter_In (fun kv => q (fst kv)) (c, n) (Counter l))).
    apply Hin1. auto. }
  destruct Hcn as [Hcn Hqc].
  pose proof (Counter_values l _ Hcn) as Hn. simpl in Hn.
  assert (Hcl : In c l).
  { apply Counter_keys_In, in_map_iff. exists (c, n). auto. }
  assert (Hle : forall c', ~ In c' M -> In c' l ->
                           In (c', count_occ ascii_dec l c') A
                           \/ c' = c
                           \/ In (c', count_occ ascii_dec l c') B).
  { intros c' HM Hl.
    assert (H1 : In (c', count_occ ascii_dec l c')
                   (filter (fun kv => q (fst kv)) (Counter l))).
    { apply filter_In. split; [now apply Counter_In|].
      simpl. now apply not_contains. }
    apply Hin1 in H1 as [H1|[H1|H1]]; auto.
    injection H1 as -> _. auto. }
  split; [now apply not_contains|]. split; [assumption|]. split.
  - intros c' HM. destruct (in_dec ascii_dec c' l) as [Hl|Hl].
    + destruct (Hle c' HM Hl) as [H1|[->|H1]]; [| lia |].
      * rewrite Forall_forall in HA. apply HA in H1. simpl in H1. lia.
      * rewrite Forall_forall in HB. apply HB in H1. simpl in H1. lia.
    + rewrite (proj1 (count_occ_not_In ascii_dec l c') Hl). lia.
  - intros c' HM Hne Heq.
    apply Counter_order. apply (index_filter q); [now apply not_contains|].
    rewrite <- keys_filter, Hd, map_app. simpl.
    rewrite !index_app. simpl. rewrite Ascii.eqb_refl.
    assert (HnA : ~ In c' (map fst A)).
    { intros Hin. apply in_map_iff in Hin as ([k m] & Hk & Hin).
      simpl in Hk. subst k.
      assert (Hm : m = count_occ ascii_dec l c').
      { apply (Counter_values l (c', m)).
        apply (proj1 (filter_In (fun kv => q (fst kv)) (c', m) (Counter l))).
        apply Hin1. auto. }
      rewrite Forall_forall in HA. apply HA in Hin. simpl in Hin. lia. }
    rewrite (index_not_In c' (map fst A) HnA), Nat.ltb_irrefl.
    apply Ascii.eqb_neq in Hne. rewrite (Ascii.eqb_sym c c'), Hne.
    pose proof (index_le_length c (map fst A)).
    destruct (index c (map fst A) <? length (map fst A)); lia.
Qed.

Lemma most_common_letter_returns (W : list str) (M : list ascii) :
  (exists x, In x (concat W) /\ ~ In x M) ->
  exists c, most_common_letter W M = Ok c.
Proof.
  intros (x & Hx & HM). rewrite most_common_letter_eq.
  destruct (most_common _) as [|item rest] eqn:Hmc; [|eauto].
  apply most_common_nil in Hmc.
  assert (Hin : In (x, count_occ ascii_dec (concat W) x)
                  (filter (fun kv => negb (contains M (fst kv)))
                     (Counter (concat W)))).
  { apply filter_In. split; [now apply Counter_In|].
    simpl. now apply not_contains. }
  rewrite Hmc in Hin. destruct Hin.
Qed.

Lemma most_common_letter_raises (W : list str) (M : list ascii) :
  (forall x, In x (concat W) -> In x M) ->
  most_common_letter W M = Raise IndexError.
Proof.
  intros Hall. rewrite most_common_letter_eq.
  destruct (most_common _) as [|[c n] rest] eqn:Hmc; [reflexivity|].
  apply most_common_head in Hmc as (A & B & Hd & _).
  assert (Hin : In (c, n) (filter (fun kv => negb (contains M (fst kv)))
                             (Counter (concat W)))).
  { rewrite Hd, in_app_iff. simpl. auto. }
  apply filter_In in Hin as [Hin Hq]. simpl in Hq.
  apply not_contains in Hq. exfalso. apply Hq, Hall.
  apply Counter_keys_In, in_map_iff. exists (c, n). auto.
Qed.

(** C2. When some letter of the words is not in the masked word (so the
    word list is not empty), [most_common_letter] returns an unrevealed
    letter whose number of occurrences over the words is maximal among the
    unrevealed letters, and among the unrevealed letters of that count the
    one met first when the words are scanned in order, character by
    character. *)
Theorem most_common_letter_first_max (W : list str) (M : list ascii) :
  (exists x, In x (concat W) /\ ~ In x M) ->
  exists c,
    most_common_letter W M = Ok c
    /\ ~ In c M
    /\ In c (concat W)
    /\ (forall c', ~ In c' M -> occurrences W c' <= occurrences W c)
    /\ (forall c', ~ In c' M -> c' <> c ->
                   occurrences W c' = occurrences W c ->
                   index c (concat W) < index c' (concat W)).
Proof.
  intros Hsome. destruct (most_common_letter_returns W M Hsome) as [c Hc].
  exists c. split; [assumption|]. now apply most_common_letter_spec.
Qed.

Lemma most_common_letter_first_max_witness :
  let W := [s "cat"; s "car"; s "can"; s "cap"] in
  let M := s "ca_" in
  exists c,
    most_common_letter W M = Ok c
    /\ c = "t"%char
    /\ (forall c', ~ In c' M -> occurrences W c' <= occurrences W c)
    /\ (forall c', ~ In c' M -> c' <> c ->
                   occurrences W c' = occurrences W c ->
                   index c (concat W) < index c' (concat W)).
Proof.
  intros W M.
  destruct (most_common_letter_first_max W M) as (c & Hc & _ & _ & Hmax & Htie).
  - exists "t"%char. split; [simpl; auto 10|].
    simpl. intros [H|[H|[H|[]]]]; discriminate.
  - exists c. split; [assumption|]. split; [|split; assumption].
    vm_compute in Hc. now injection Hc as <-.
Defined.

(** C5. Whenever [most_common_letter] returns, the letter is not in the
    masked word: the counts the maximum is taken over have no key that
    occurs in the masked word. *)
Theorem most_common_letter_unrevealed (W : list str) (M : list ascii)
  (c : ascii) :
  most_common_letter W M = Ok c ->
  ~ In c M
  /\ Forall (fun kv => ~ In (fst kv) M)
       (fold_left (fun counts x => pop x counts) M (get_char_frequency W)).
Proof.
  intros Hc. split.
  - now apply most_common_letter_spec in Hc.
  - rewrite pop_all. apply Forall_forall. intros kv Hin.
    apply filter_In in Hin as [_ Hq]. now apply not_contains.
Qed.

Lemma most_common_letter_unrevealed_witness :
  ~ In "a"%char (s "c__").
Proof.
  apply (most_common_letter_unrevealed
           [s "cat"; s "car"; s "can"; s "cap"] (s "c__") "a"%char).
  reflexivity.
Defined.

(** C7, as the code has it. When no unrevealed letter remains,
    [most_common_letter] returns no letter: it fails with the builtin
    [IndexError] of indexing the empty [most_common()] list, not with an
    [ExhaustedError]. *)
Theorem most_common_letter_exhausted (W : list str) (M : list ascii) :
  (forall x, In x (concat W) -> In x M) ->
  most_common_letter W M = Raise IndexError
  /\ most_common_letter W M <> Raise ExhaustedError.
Proof.
  intros Hall. rewrite (most_common_letter_raises W M Hall).
  split; [reflexivity|discriminate].
Qed.

Lemma most_common_letter_exhausted_witness :
  most_common_letter [s "aa"; s "aa"] (s "aa") = Raise IndexError
  /\ most_common_letter [s "aa"; s "aa"] (s "aa") <> Raise ExhaustedError.
Proof.
  apply (most_common_letter_exhausted [s "aa"; s "aa"] (s "aa")).
  simpl. intros x [<-|[<-|[<-|[<-|[]]]]]; auto.
Defined.

(** C7, as the claim has it, fails: with every letter of the words
    revealed the error is [IndexError]. *)
Lemma most_common_letter_no_ExhaustedError :
  let W := [s "aa"; s "aa"] in
  let M := s "aa" in
  (forall x, In x (concat W) -> In x M)
  /\ most_common_letter W M <> Raise ExhaustedError.
Proof.
  intros W M. split.
  - simpl. intros x [<-|[<-|[<-|[<-|[]]]]]; auto.
  - discriminate.
Qed.

(** ** Truthful replies *)

Lemma expected_indices_from (n : nat) (w : str) (c : ascii) :
  map fst (filter (fun ic => Ascii.eqb (snd ic) c)
             (enumerate_from (Z.of_nat n) w))
  = map Z.of_nat (positions_from n w c).
Proof.
  revert n. induction w as [|x w IH]; intros n; simpl; [reflexivity|].
  specialize (IH (S n)).
  replace (Z.of_nat (S n)) with (Z.of_nat n + 1)%Z in IH by lia.
  destruct (Ascii.eqb x c); simpl; now rewrite IH.
Qed.

Lemma expected_indices_positions (w : str) (c : ascii) :
  expected_indices w c = map Z.of_nat (positions w c).
Proof. apply (expected_indices_from 0). Qed.

Lemma positions_from_In (n : nat) (w : str) (c : ascii) (i : nat) :
  In i (positions_from n w c)
  <-> exists j, i = n + j /\ nth_error w j = Some c.
Proof.
  revert n. induction w as [|x w IH]; intros n; simpl.
  - split; [tauto|]. intros (j & _ & Hj). destruct j; discriminate.
  - destruct (Ascii.eqb_spec x c) as [->|Hne]; simpl; rewrite IH; split.
    + intros [<-|(j & -> & Hj)].
      * exists 0. split; [lia|reflexivity].
      * exists (S j). split; [lia|assumption].
    + intros (j & -> & Hj). destruct j as [|j].
      * left. lia.
      * right. exists j. split; [lia|assumption].
    + intros (j & -> & Hj). exists (S j). split; [lia|assumption].
    + intros (j & -> & Hj). destruct j as [|j]; simpl in Hj.
      * congruence.
      * exists j. split; [lia|assumption].
Qed.

Lemma positions_In (w : str) (c : ascii) (i : nat) :
  In i (positions w c) <-> nth_error w i = Some c.
Proof.
  unfold positions. rewrite positions_from_In. split.
  - intros (j & -> & Hj). assumption.
  - intros Hi. exists i. auto.
Qed.

Lemma positions_lt (w : str) (c : ascii) (i : nat) :
  In i (positions w c) -> i < length w.
Proof.
  rewrite positions_In. intros Hi. apply nth_error_Some. congruence.
Qed.

Lemma positions_nil (w : str) (c : ascii) :
  positions w c = [] <-> ~ In c w.
Proof.
  split.
  - intros Hnil Hin. apply In_nth_error in Hin as [i Hi].
    apply positions_In in Hi. rewrite Hnil in Hi. destruct Hi.
  - intros Hn. destruct (positions w c) as [|i P] eqn:HP; [reflexivity|].
    exfalso. apply Hn. apply (nth_error_In w i).
    apply positions_In. rewrite HP. now left.
Qed.

Lemma expected_indices_nil (w : str) (c : ascii) :
  expected_indices w c = [] <-> ~ In c w.
Proof.
  rewrite expected_indices_positions, <- positions_nil.
  destruct (positions w c); simpl; split; congruence.
Qed.

Lemma has_at_positions (w : str) (c : ascii) :
  forallb (has_at w c) (positions w c) = true.
Proof.
  apply forallb_forall. intros i Hi. apply positions_In in Hi.
  unfold has_at. rewrite Hi. apply Ascii.eqb_refl.
Qed.

Lemma all_at_expected_indices (w : str) (c : ascii) :
  all_at w c (expected_indices w c) = Ok true.
Proof.
  rewrite expected_indices_positions, all_at_nat.
  - now rewrite has_at_positions.
  - apply positions_lt.
Qed.

(** With candidates of the secret's length the truthful reply is in
    range, and [filter_by_known_letter] returns. *)
Lemma filter_by_known_letter_expected (W : list str) (word : str) (c : ascii) :
  Forall (fun w => length w = length word) W ->
  filter_by_known_letter W c (expected_indices word c)
  = Ok (filter (fun w => forallb (has_at w c) (positions word c)) W).
Proof.
  intros Hsize. rewrite expected_indices_positions.
  apply filter_by_known_letter_nat. intros w i Hw Hi.
  rewrite Forall_forall in Hsize. rewrite (Hsize w Hw).
  eapply positions_lt; eassumption.
Qed.

(** ** The masked word *)

Lemma mask_nil (word : str) : mask word [] = repeat "_"%char (length word).
Proof.
  unfold mask. induction word as [|x word IH]; simpl; [reflexivity|].
  now f_equal.
Qed.

Lemma mask_In (word : str) (R : list ascii) (x : ascii) :
  In x (mask word R) -> In x R \/ x = "_"%char.
Proof.
  unfold mask. rewrite in_map_iff. intros (ch & Hx & _).
  destruct (contains R ch) eqn:Hc; [|auto].
  apply contains_In in Hc. subst. auto.
Qed.

Lemma mask_reveals (word : str) (R : list ascii) (x : ascii) :
  In x word -> In x R -> In x (mask word R).
Proof.
  intros Hw HR. unfold mask. apply in_map_iff. exists x.
  apply contains_In in HR. rewrite HR. auto.
Qed.

Lemma reveal_nat (m : list ascii) (c : ascii) (P : list nat) :
  (forall i, In i P -> i < length m) ->
  exists m',
    reveal m c (map Z.of_nat P) = Ok m'
    /\ forall j, nth_error m' j
                 = if existsb (Nat.eqb j) P then Some c else nth_error m j.
Proof.
  revert m. induction P as [|i P IH]; intros m Hrange; simpl.
  - eauto.
  - unfold setitem. rewrite norm_index_nat by (apply Hrange; now left).
    simpl. destruct (IH (list_set m i c)) as (m' & -> & Hnth).
    { intros k Hk. rewrite list_set_length. apply Hrange. now right. }
    exists m'. split; [reflexivity|]. intros j. rewrite Hnth.
    rewrite nth_error_list_set by (apply Hrange; now left).
    rewrite (Nat.eqb_sym i j).
    destruct (existsb (Nat.eqb j) P); [now rewrite orb_true_r|].
    now rewrite orb_false_r.
Qed.

(** Writing [c] at its positions reveals [c] in the masked word. *)
Lemma reveal_mask (word : str) (R : list ascii) (c : ascii) :
  reveal (mask word R) c (expected_indices word c) = Ok (mask word (c :: R)).
Proof.
  rewrite expected_indices_positions.
  destruct (reveal_nat (mask word R) c (positions word c))
    as (m' & -> & Hnth).
  { intros i Hi. unfold mask. rewrite length_map.
    eapply positions_lt; eassumption. }
  f_equal. apply nth_error_ext. intros j. rewrite Hnth.
  unfold mask. rewrite !nth_error_map.
  destruct (existsb (Nat.eqb j) (positions word c)) eqn:Hj.
  - apply existsb_exists in Hj as (i & Hi & Heq).
    apply Nat.eqb_eq in Heq. subst i. apply positions_In in Hi.
    rewrite Hi. simpl. unfold contains. simpl.
    now rewrite Ascii.eqb_refl.
  - destruct (nth_error word j) as [ch|] eqn:Hch; simpl; [|reflexivity].
    unfold contains. simpl.
    destruct (Ascii.eqb_spec ch c) as [->|Hne]; [|reflexivity].
    apply positions_In in Hch.
    assert (Ht : existsb (Nat.eqb j) (positions word c) = true).
    { apply existsb_exists. exists j. split; [assumption|apply Nat.eqb_refl]. }
    congruence.
Qed.

(** ** Candidates *)

Lemma count_occ_filter_le (p : str -> bool) (l : list str) (x : str) :
  count_occ str_dec (filter p l) x <= count_occ str_dec l x.
Proof.
  induction l as [|y l IH]; simpl; [lia|].
  destruct (p y); simpl; destruct (str_dec y x); lia.
Qed.

Lemma other_word (word : str) (ws : list str) :
  In word ws -> count_occ str_dec ws word <= 1 -> length ws <> 1 ->
  exists w, In w ws /\ w <> word.
Proof.
  destruct ws as [|a [|b rest]]; simpl.
  - tauto.
  - lia.
  - intros _ Hcount _.
    destruct (str_dec a word) as [->|Ha]; [|exists a; auto].
    destruct (str_dec b word) as [->|Hb]; [lia|exists b; auto].
Qed.

Lemma differ_at (l1 l2 : str) :
  length l1 = length l2 -> l1 <> l2 ->
  exists i a b, nth_error l1 i = Some a /\ nth_error l2 i = Some b /\ a <> b.
Proof.
  revert l2. induction l1 as [|x l1 IH]; intros [|y l2]; simpl;
    try discriminate.
  - congruence.
  - intros [= Hlen] Hne. destruct (ascii_dec x y) as [->|Hxy].
    + destruct (IH l2 Hlen) as (i & a & b & H1 & H2 & Hab); [congruence|].
      exists (S i), a, b. auto.
    + exists 0, x, y. auto.
Qed.

(** While more than the secret is left, the secret has an unrevealed
    letter: another candidate of its length differs from it somewhere,
    and not where a revealed letter stands. *)
Lemma still_open (word : str) (R : list ascii) (ws : list str) :
  In word ws -> count_occ str_dec ws word <= 1 ->
  Forall (fun w => length w = length word) ws ->
  agree word R ws -> length ws <> 1 ->
  exists ch, In ch word /\ ~ In ch R.
Proof.
  intros Hin Honce Hsize Hagree Hlen.
  destruct (other_word word ws Hin Honce Hlen) as (w & Hw & Hne).
  rewrite Forall_forall in Hsize.
  destruct (differ_at word w) as (i & a & b & Ha & Hb & Hab).
  { symmetry. now apply Hsize. }
  { congruence. }
  exists a. split; [eapply nth_error_In; eassumption|].
  intros HR. specialize (Hagree w i a Hw HR Ha). congruence.
Qed.

Lemma agree_subset (word : str) (R : list ascii) (ws ws' : list str) :
  (forall w, In w ws' -> In w ws) -> agree word R ws -> agree word R ws'.
Proof. unfold agree. intros Hsub Hagree w i ch Hw. apply Hagree; auto. Qed.

Lemma Forall_subset {A : Type} (P : A -> Prop) (l l' : list A) :
  (forall x, In x l' -> In x l) -> Forall P l -> Forall P l'.
Proof. rewrite !Forall_forall. auto. Qed.

Lemma underscore_not_a_letter : ~ In "_"%char alphabet.
Proof.
  destruct (in_dec ascii_dec "_"%char alphabet) as [Hin|Hout] eqn:Hdec;
    [|assumption].
  vm_compute in Hdec. discriminate.
Qed.

Lemma check_game_over_cases ws masked wrong :
  (6 <= wrong /\ Failed (check_game_over ws masked wrong))
  \/ (wrong < 6 /\ length ws = 1 /\ Solved (check_game_over ws masked wrong))
  \/ (wrong < 6 /\ length ws <> 1
      /\ check_game_over ws masked wrong = mkGame ws masked wrong None).
Proof.
  unfold Failed, Solved. rewrite game_over_check_game_over.
  unfold check_game_over. rewrite max_wrong_guesses.
  destruct (Nat.leb_spec 6 wrong); [auto|].
  destruct (Nat.eqb_spec (length ws) 1); auto.
Qed.

Lemma turn_known word human st letter :
  most_common_letter (words st) (masked_word st) = Ok letter ->
  human letter <> [] ->
  turn word human st
  = (ws <- filter_by_known_letter (words st) letter (human letter) ;;
     masked <- reveal (masked_word st) letter (human letter) ;;
     Ok (check_game_over ws masked (wrong_guesses st))).
Proof.
  intros Hl Hh. unfold turn. rewrite Hl. cbn [bind].
  destruct (human letter); [congruence|reflexivity].
Qed.

Lemma turn_excluded word human st letter :
  most_common_letter (words st) (masked_word st) = Ok letter ->
  human letter = [] ->
  turn word human st
  = Ok (check_game_over (filter_by_excluded_letter (words st) letter)
          (masked_word st) (wrong_guesses st + 1)).
Proof.
  intros Hl Hh. unfold turn. rewrite Hl. cbn [bind]. now rewrite Hh.
Qed.

(** ** The game loop *)

Lemma play_over (k : nat) word human st (message : string) :
  game_over st = Some message -> play k word human st = Ok st.
Proof. intros Hgo. destruct k; simpl; [reflexivity|]. now rewrite Hgo. Qed.

Lemma start_secret (vocabulary : list str) (word : str) :
  In word vocabulary -> In word (words (start vocabulary word)).
Proof.
  intros Hin. simpl. unfold filter_by_word_size. apply filter_In.
  split; [assumption|apply Nat.eqb_refl].
Qed.

Lemma turn_keeps_secret word human st st' :
  truthful word human -> In word (words st) ->
  turn word human st = Ok st' -> In word (words st').
Proof.
  intros Htruth Hin Hturn.
  apply turn_inv in Hturn
    as (letter & _ & [(_ & ws & m & Hf & _ & ->)|(Hnil & ->)]);
    rewrite words_check_game_over.
  - rewrite Htruth in Hf.
    eapply filter_by_known_letter_keeps;
      [eassumption|assumption|apply all_at_expected_indices].
  - rewrite Htruth in Hnil. apply expected_indices_nil in Hnil.
    now apply filter_by_excluded_letter_In.
Qed.

Lemma play_keeps_secret (n : nat) word human st0 st :
  truthful word human -> In word (words st0) ->
  play n word human st0 = Ok st -> In word (words st).
Proof.
  intros Htruth. revert st0. induction n as [|n IH]; intros st0 Hin; simpl.
  - now intros [= <-].
  - destruct (game_over st0); [now intros [= <-]|].
    destruct (turn word human st0) as [st1|e] eqn:Hturn; simpl;
      [|discriminate].
    apply IH. eapply turn_keeps_secret; eassumption.
Qed.

Lemma in_progress_next word R R' st ws masked wrong :
  in_progress word R st ->
  (forall w, In w ws -> In w (words st)) ->
  In word ws -> count_occ str_dec ws word <= 1 ->
  masked = mask word R' -> NoDup R' -> incl R' word -> agree word R' ws ->
  wrong < 6 -> length ws <> 1 ->
  in_progress word R' (mkGame ws masked wrong None).
Proof.
  intros Hip Hsub Hsec Honce Hmask Hnd Hincl Hagree Hwrong Hlen.
  assert (Hsize : Forall (fun w => length w = length word) ws).
  { eapply Forall_subset; [exact Hsub|apply (ip_size _ _ _ Hip)]. }
  constructor; simpl; try assumption.
  - reflexivity.
  - eapply still_open; eassumption.
Qed.

(** A turn of a game in progress returns. It ends the game, or leaves it
    in progress with one more letter revealed or one more wrong guess. *)
Lemma turn_progress_unmasked word human R st :
  ~ In "_"%char word -> truthful word human -> in_progress word R st ->
  exists st',
    turn word human st = Ok st'
    /\ (Solved st' \/ Failed st'
        \/ exists R',
            in_progress word R' st'
            /\ length R' + wrong_guesses st'
               = S (length R + wrong_guesses st)).
Proof.
  intros Hunder Htruth Hip.
  pose proof Hip as
    [_ Hsec Honce Hsize Hmask Hnd Hincl Hagree Hwrong (ch & Hch & HchR)].
  destruct (most_common_letter_returns (words st) (masked_word st))
    as [letter Hletter].
  { exists ch. split.
    - apply in_concat. exists word. auto.
    - rewrite Hmask. intros Hin. apply mask_In in Hin as [Hin| ->]; [auto|].
      now apply Hunder. }
  destruct (most_common_letter_spec _ _ _ Hletter) as (HlM & _).
  destruct (in_dec ascii_dec letter word) as [Hlw|Hlw].
  - assert (HlR : ~ In letter R).
    { intros HR. apply HlM. rewrite Hmask. now apply mask_reveals. }
    assert (Hh : human letter <> []).
    { rewrite Htruth. intros Hnil. now apply expected_indices_nil in Hnil. }
    rewrite (turn_known word human st letter Hletter Hh), Htruth.
    rewrite (filter_by_known_letter_expected _ _ _ Hsize). cbn [bind].
    rewrite Hmask, reveal_mask. cbn [bind].
    set (ws := filter _ (words st)).
    eexists. split; [reflexivity|].
    assert (Hsub : forall w, In w ws -> In w (words st)).
    { intros w Hw. apply filter_In in Hw. tauto. }
    assert (Hsec' : In word ws).
    { apply filter_In. split; [assumption|apply has_at_positions]. }
    assert (Hagree' : agree word (letter :: R) ws).
    { intros w i c Hw [<-|HR] Hi; [|now apply Hagree; auto].
      apply filter_In in Hw as [_ Hall]. rewrite forallb_forall in Hall.
      apply positions_In in Hi. specialize (Hall i Hi).
      unfold has_at in Hall. destruct (nth_error w i); [|discriminate].
      apply Ascii.eqb_eq in Hall. now subst. }
    destruct (check_game_over_cases ws (mask word (letter :: R))
                (wrong_guesses st)) as [[H6 _]|[(_ & _ & Hs)|(_ & Hlen & ->)]].
    + lia.
    + auto.
    + right; right. exists (letter :: R). split; [|simpl; lia].
      apply (in_progress_next word R (letter :: R) st); auto.
      * eapply Nat.le_trans; [apply count_occ_filter_le|assumption].
      * now constructor.
      * intros x [<-|Hx]; auto.
  - assert (Hh : human letter = []).
    { rewrite Htruth. now apply expected_indices_nil. }
    rewrite (turn_excluded word human st letter Hletter Hh).
    set (ws := filter_by_excluded_letter (words st) letter).
    eexists. split; [reflexivity|].
    assert (Hsub : forall w, In w ws -> In w (words st)).
    { intros w Hw. apply filter_by_excluded_letter_In in Hw. tauto. }
    assert (Hsec' : In word ws) by now apply filter_by_excluded_letter_In.
    destruct (check_game_over_cases ws (masked_word st)
                (wrong_guesses st + 1)) as [[_ Hf]|[(_ & _ & Hs)|(H6 & Hlen & ->)]].
    + auto.
    + auto.
    + right; right. exists R. split; [|simpl; lia].
      apply (in_progress_next word R R st); auto.
      * eapply Nat.le_trans; [apply count_occ_filter_le|assumption].
      * eapply agree_subset; eassumption.
Qed.

Lemma turn_progress word human R st :
  incl word alphabet -> truthful word human -> in_progress word R st ->
  exists st',
    turn word human st = Ok st'
    /\ (Solved st' \/ Failed st'
        \/ exists R',
            in_progress word R' st'
            /\ length R' + wrong_guesses st'
               = S (length R + wrong_guesses st)).
Proof.
  intros Halpha. apply turn_progress_unmasked.
  intros Hin. apply underscore_not_a_letter. now apply Halpha.
Qed.

Lemma in_progress_bound word R st :
  incl word alphabet -> in_progress word R st ->
  length R + wrong_guesses st < 26 + 6.
Proof.
  intros Halpha Hip.
  assert (length R <= length alphabet).
  { apply NoDup_incl_length; [apply (ip_nodup _ _ _ Hip)|].
    intros x Hx. apply Halpha. now apply (ip_incl _ _ _ Hip). }
  pose proof (ip_wrong _ _ _ Hip). change (length alphabet) with 26 in *. lia.
Qed.

Lemma play_reaches word human :
  incl word alphabet -> truthful word human ->
  forall k R st,
    in_progress word R st ->
    26 + 6 <= k + (length R + wrong_guesses st) ->
    exists st', play k word human st = Ok st' /\ (Solved st' \/ Failed st').
Proof.
  intros Halpha Htruth. induction k as [|k IH]; intros R st Hip Hk.
  - pose proof (in_progress_bound word R st Halpha Hip). lia.
  - simpl. rewrite (ip_running _ _ _ Hip).
    destruct (turn_progress word human R st Halpha Htruth Hip)
      as (st' & -> & Hnext). cbn [bind].
    destruct Hnext as [Hs|[Hf|(R' & Hip' & Hmeasure)]].
    + exists st'. split; [eapply play_over; exact Hs|auto].
    + exists st'. split; [eapply play_over; exact Hf|auto].
    + apply (IH R' st' Hip'). lia.
Qed.

Lemma start_in_progress (vocabulary : list str) (word : str) :
  count_occ str_dec vocabulary word = 1 -> word <> [] ->
  in_progress word [] (start vocabulary word).
Proof.
  intros Honce Hne.
  assert (Hin : In word vocabulary).
  { apply (count_occ_In str_dec). lia. }
  constructor; simpl.
  - reflexivity.
  - now apply start_secret.
  - unfold filter_by_word_size.
    eapply Nat.le_trans; [apply count_occ_filter_le|lia].
  - unfold filter_by_word_size. apply Forall_forall. intros w Hw.
    apply filter_In in Hw as [_ Hw]. now apply Nat.eqb_eq.
  - symmetry. apply mask_nil.
  - constructor.
  - intros x [].
  - intros w i ch _ [].
  - lia.
  - destruct word as [|ch word]; [congruence|].
    exists ch. split; [now left|intros []].
Qed.

(** ** Properties of a game *)

(** C1. The secret word stays a candidate. [filter_by_excluded_letter]
    keeps it when the letter is not in it, [filter_by_known_letter] keeps
    it when given the positions the letter has in it, and so, in a game
    with truthful replies on a secret of the vocabulary, the secret is
    among the candidates after every turn. *)
Theorem secret_word_stays_candidate :
  (forall W word c,
      In word W -> ~ In c word -> In word (filter_by_excluded_letter W c))
  /\
  (forall W word c R,
      In word W ->
      filter_by_known_letter W c (expected_indices word c) = Ok R ->
      In word R)
  /\
  (forall vocabulary word human n st,
      In word vocabulary -> truthful word human ->
      play n word human (start vocabulary word) = Ok st ->
      In word (words st)).
Proof.
  split; [|split].
  - intros W word c Hin Hc. now apply filter_by_excluded_letter_In.
  - intros W word c R Hin Hf.
    eapply filter_by_known_letter_keeps;
      [eassumption|assumption|apply all_at_expected_indices].
  - intros vocabulary word human n st Hin Htruth Hplay.
    eapply play_keeps_secret; [eassumption| |eassumption].
    now apply start_secret.
Qed.

Lemma secret_word_stays_candidate_witness :
  let vocabulary := [s "dog"; s "cat"; s "bat"] in
  let word := s "cat" in
  In word (filter_by_excluded_letter vocabulary "d")
  /\ In word [s "cat"; s "bat"]
  /\ In word (words (mkGame [s "cat"]
                       (s "cat") 0 (Some "I found your word!"))).
Proof.
  intros vocabulary word.
  destruct secret_word_stays_candidate as (Hexcluded & Hknown & Hplay).
  assert (Hin : In word vocabulary) by (simpl; auto).
  split; [|split].
  - apply (Hexcluded vocabulary word "d"%char Hin).
    simpl. intros [H|[H|[H|[]]]]; discriminate.
  - apply (Hknown vocabulary word "a"%char [s "cat"; s "bat"] Hin).
    reflexivity.
  - apply (Hplay vocabulary word (expected_indices word) 3 _ Hin).
    + intros letter. reflexivity.
    + reflexivity.
Defined.

(** C6, as the code has it. When the secret word is not empty, is made of
    the 26 letters a to z and occurs exactly once in the vocabulary, a
    game with truthful replies is solved or failed within 26 + 6 turns. *)
Theorem play_reaches_game_over (vocabulary : list str) (word : str)
  (human : ascii -> list Z) :
  count_occ str_dec vocabulary word = 1 ->
  word <> [] ->
  incl word alphabet ->
  truthful word human ->
  exists st,
    play (26 + 6) word human (start vocabulary word) = Ok st
    /\ (Solved st \/ Failed st).
Proof.
  intros Honce Hne Halpha Htruth.
  apply (play_reaches word human Halpha Htruth (26 + 6) []).
  - now apply start_in_progress.
  - simpl. lia.
Qed.

Lemma play_reaches_game_over_witness :
  let vocabulary := [s "dog"; s "cat"; s "bat"] in
  let word := s "cat" in
  exists st,
    play (26 + 6) word (expected_indices word) (start vocabulary word) = Ok st
    /\ (Solved st \/ Failed st).
Proof.
  intros vocabulary word.
  apply (play_reaches_game_over vocabulary word (expected_indices word)).
  - reflexivity.
  - discriminate.
  - intros x [<-|[<-|[<-|[]]]]; unfold alphabet; simpl; auto 30.
  - intros letter. reflexivity.
Defined.

(** C6, as the claim has it, fails in three ways. A vocabulary that holds
    the secret twice, or an empty secret, makes [most_common_letter]
    raise before the game is over; a secret of more than 26 distinct
    characters is still being guessed after 26 + 6 turns. *)
Lemma play_without_game_over :
  (let vocabulary := [s "aa"; s "aa"] in
   let word := s "aa" in
   In word vocabulary
   /\ play (26 + 6) word (expected_indices word) (start vocabulary word)
      = Raise IndexError)
  /\
  (let vocabulary := [s ""; s "a"] in
   let word := s "" in
   In word vocabulary
   /\ play (26 + 6) word (expected_indices word) (start vocabulary word)
      = Raise IndexError)
  /\
  (let vocabulary := [s "abcdefghijklmnopqrstuvwxyz01234567";
                      s "abcdefghijklmnopqrstuvwxyz01234568"] in
   let word := s "abcdefghijklmnopqrstuvwxyz01234567" in
   In word vocabulary
   /\ exists st,
       play (26 + 6) word (expected_indices word) (start vocabulary word)
       = Ok st
       /\ game_over st = None).
Proof.
  split; [|split]; intros vocabulary word.
  - split; [simpl; auto|]. vm_compute. reflexivity.
  - split; [simpl; auto|]. vm_compute. reflexivity.
  - split; [simpl; auto|]. eexists. split; vm_compute; reflexivity.
Qed.

(** * Further properties *)

(** ** The frequency dict *)

Lemma sum_incr (c : ascii) (d : counter) :
  list_sum (map snd (incr c d)) = S (list_sum (map snd d)).
Proof.
  induction d as [|[k n] d IH]; simpl; [reflexivity|].
  destruct (Ascii.eqb k c); simpl; [reflexivity|]. rewrite IH. lia.
Qed.

(** X1. [get_char_frequency] has one entry for each letter that occurs in
    the words and none for the others, and the entry of a letter holds
    the number of its occurrences over all the words. *)
Theorem get_char_frequency_counts (W : list str) (c : ascii) :
  (In c (concat W) -> In (c, occurrences W c) (get_char_frequency W))
  /\ (forall n, In (c, n) (get_char_frequency W) ->
                n = occurrences W c /\ 0 < n)
  /\ NoDup (map fst (get_char_frequency W)).
Proof.
  unfold get_char_frequency, occurrences. split; [|split].
  - apply Counter_In.
  - intros n Hin. pose proof (Counter_values _ _ Hin) as Hn. simpl in Hn.
    split; [assumption|]. subst n. apply count_occ_In.
    apply Counter_keys_In, in_map_iff. exists (c, count_occ ascii_dec (concat W) c).
    auto.
  - apply Counter_keys_NoDup.
Qed.

Lemma get_char_frequency_counts_witness :
  In ("a"%char, 3) (get_char_frequency [s "banana"; s "kiwi"])
  /\ (3 = occurrences [s "banana"; s "kiwi"] "a" /\ 0 < 3).
Proof.
  destruct (get_char_frequency_counts [s "banana"; s "kiwi"] "a")
    as (Hin & Hval & _).
  assert (H : In ("a"%char, 3) (get_char_frequency [s "banana"; s "kiwi"])).
  { apply Hin. simpl. auto. }
  split; [exact H|]. apply Hval. exact H.
Defined.

(** X2. The counts of [get_char_frequency] add up to the number of
    characters of all the words. *)
Theorem get_char_frequency_total (W : list str) :
  list_sum (map snd (get_char_frequency W)) = length (concat W).
Proof.
  unfold get_char_frequency.
  induction (concat W) as [|c l IH] using rev_ind; [reflexivity|].
  rewrite Counter_snoc, sum_incr, IH, length_app. simpl. lia.
Qed.

(** ** How the filters compose *)

Lemma filter_comm {A : Type} (p q : A -> bool) (l : list A) :
  filter p (filter q l) = filter q (filter p l).
Proof.
  rewrite !filter_filter. apply filter_ext. intros x. apply andb_comm.
Qed.

Lemma filter_by_known_letter_filter (p : str -> bool) (W : list str)
  (c : ascii) (P : list Z) (R : list str) :
  filter_by_known_letter W c P = Ok R ->
  filter_by_known_letter (filter p W) c P = Ok (filter p R).
Proof.
  revert R. induction W as [|w W IH]; intros R; simpl.
  - now intros [= <-].
  - destruct (all_at w c P) as [keep|e] eqn:Hall; simpl; [|discriminate].
    destruct (filter_by_known_letter W c P) as [kept|e]; simpl; [|discriminate].
    intros [= <-]. specialize (IH kept eq_refl).
    destruct (p w) eqn:Hp; simpl.
    + rewrite Hall, IH. simpl. destruct keep; simpl; now rewrite ?Hp.
    + rewrite IH. destruct keep; simpl; now rewrite ?Hp.
Qed.

Lemma all_at_app (w : str) (c : ascii) (P1 P2 : list Z) :
  all_at w c (P1 ++ P2)
  = (b <- all_at w c P1 ;; if b then all_at w c P2 else Ok false).
Proof.
  induction P1 as [|i P1 IH]; simpl; [reflexivity|].
  destruct (getitem w i) as [ch|e]; simpl; [|reflexivity].
  destruct (Ascii.eqb ch c); [assumption|reflexivity].
Qed.

(** X3. Once the vocabulary is filtered to the length of the secret, the
    positions of a letter in the secret are valid indices of every
    candidate: [filter_by_known_letter] returns, and keeps the secret. *)
Theorem filter_by_word_size_then_known_letter (V : list str) (word : str)
  (c : ascii) :
  exists R,
    filter_by_known_letter (filter_by_word_size V (length word)) c
      (expected_indices word c) = Ok R
    /\ (In word V -> In word R).
Proof.
  assert (Hsize : Forall (fun w => length w = length word)
                    (filter_by_word_size V (length word))).
  { apply Forall_forall. intros w Hw. unfold filter_by_word_size in Hw.
    apply filter_In in Hw as [_ Hw]. now apply Nat.eqb_eq. }
  rewrite (filter_by_known_letter_expected _ _ _ Hsize).
  eexists. split; [reflexivity|].
  intros Hin. apply filter_In. split; [|apply has_at_positions].
  unfold filter_by_word_size. apply filter_In.
  split; [assumption|apply Nat.eqb_refl].
Qed.

Lemma filter_by_word_size_then_known_letter_witness :
  exists R,
    filter_by_known_letter
      (filter_by_word_size [s "at"; s "cat"; s "bath"; s "dog"] 3) "a"
      (expected_indices (s "cat") "a") = Ok R
    /\ In (s "cat") R.
Proof.
  destruct (filter_by_word_size_then_known_letter
              [s "at"; s "cat"; s "bath"; s "dog"] (s "cat") "a")
    as (R & HR & Hin).
  exists R. split; [exact HR|]. apply Hin. simpl. auto.
Defined.

(** Without the length filter the same call raises. *)
Example filter_by_known_letter_unfiltered :
  filter_by_known_letter [s "at"; s "cat"] "t" (expected_indices (s "cat") "t")
  = Raise IndexError.
Proof. reflexivity. Qed.

(** X4. A letter that was excluded is not the next guess:
    [most_common_letter] never returns the letter
    [filter_by_excluded_letter] has just removed, whatever the masked
    word. *)
Theorem excluded_letter_not_guessed (W : list str) (c : ascii)
  (M : list ascii) :
  most_common_letter (filter_by_excluded_letter W c) M <> Ok c.
Proof.
  intros Hc. apply most_common_letter_spec in Hc as (_ & Hin & _).
  apply in_concat in Hin as (w & Hw & Hcw).
  apply filter_by_excluded_letter_In in Hw as [_ Hn]. contradiction.
Qed.

Lemma excluded_letter_not_guessed_witness :
  most_common_letter (filter_by_excluded_letter [s "cat"; s "dog"] "o") []
  <> Ok "o"%char.
Proof.
  apply (excluded_letter_not_guessed [s "cat"; s "dog"] "o" []).
Defined.

(** X5. The filters can be applied in any order: two exclusions commute,
    an exclusion commutes with the length filter, and excluding a letter
    before or after [filter_by_known_letter] gives the same words. *)
Theorem filters_commute :
  (forall W a b,
      filter_by_excluded_letter (filter_by_excluded_letter W a) b
      = filter_by_excluded_letter (filter_by_excluded_letter W b) a)
  /\
  (forall W a size,
      filter_by_word_size (filter_by_excluded_letter W a) size
      = filter_by_excluded_letter (filter_by_word_size W size) a)
  /\
  (forall W a c P R,
      filter_by_known_letter W c P = Ok R ->
      filter_by_known_letter (filter_by_excluded_letter W a) c P
      = Ok (filter_by_excluded_letter R a)).
Proof.
  split; [|split].
  - intros W a b. apply filter_comm.
  - intros W a size. apply filter_comm.
  - intros W a c P R. apply filter_by_known_letter_filter.
Qed.

Lemma filters_commute_witness :
  filter_by_known_letter
    (filter_by_excluded_letter [s "cat"; s "bat"; s "dog"] "b") "a" [1%Z]
  = Ok (filter_by_excluded_letter [s "cat"; s "bat"] "b").
Proof.
  apply (proj2 (proj2 filters_commute)). reflexivity.
Defined.

(** X6. Narrowing by the indices [P1 ++ P2] at once gives the words that
    narrowing by [P1] and then by [P2] gives, and one returns when the
    other does. *)
Theorem filter_by_known_letter_app (W : list str) (c : ascii)
  (P1 P2 : list Z) (R : list str) :
  filter_by_known_letter W c (P1 ++ P2) = Ok R
  <-> exists R1,
      filter_by_known_letter W c P1 = Ok R1
      /\ filter_by_known_letter R1 c P2 = Ok R.
Proof.
  revert R. induction W as [|w W IH]; intros R; simpl.
  - split.
    + intros [= <-]. exists []. auto.
    + intros (R1 & [= <-] & H2). exact H2.
  - rewrite all_at_app.
    destruct (all_at w c P1) as [[|]|e] eqn:H1; simpl.
    + destruct (all_at w c P2) as [keep|e] eqn:H2; simpl.
      * destruct (filter_by_known_letter W c (P1 ++ P2)) as [kept|e] eqn:HW;
          simpl.
        -- destruct (proj1 (IH kept) eq_refl) as (R1 & HR1 & HR2).
           rewrite HR1. simpl. split.
           ++ intros [= <-]. exists (w :: R1). split; [reflexivity|].
              simpl. rewrite H2, HR2. reflexivity.
           ++ intros (R1' & [= <-] & Hf). simpl in Hf.
              rewrite H2, HR2 in Hf. exact Hf.
        -- split; [discriminate|].
           intros (R1' & Hf1 & Hf2).
           destruct (filter_by_known_letter W c P1) as [kept1|e1] eqn:HW1;
             simpl in Hf1; [|discriminate].
           injection Hf1 as <-. simpl in Hf2. rewrite H2 in Hf2. simpl in Hf2.
           destruct (filter_by_known_letter kept1 c P2) as [kept2|e2] eqn:HW2;
             simpl in Hf2; [|discriminate].
           assert (Hk : Raise e = Ok kept2).
           { apply IH. exists kept1. auto. }
           discriminate.
      * split; [discriminate|].
        intros (R1' & Hf1 & Hf2).
        destruct (filter_by_known_letter W c P1) as [kept1|e1];
          simpl in Hf1; [|discriminate].
        injection Hf1 as <-. simpl in Hf2. rewrite H2 in Hf2. discriminate.
    + destruct (filter_by_known_letter W c (P1 ++ P2)) as [kept|e] eqn:HW;
        simpl.
      * destruct (proj1 (IH kept) eq_refl) as (R1 & HR1 & HR2).
        rewrite HR1. simpl. split.
        -- intros [= <-]. exists R1. auto.
        -- intros (R1' & [= <-] & Hf). congruence.
      * split; [discriminate|].
        intros (R1' & Hf1 & Hf2).
        destruct (filter_by_known_letter W c P1) as [kept1|e1] eqn:HW1;
          simpl in Hf1; [|discriminate].
        injection Hf1 as <-.
        assert (Hk : Raise e = Ok R).
        { apply IH. exists kept1. auto. }
        discriminate.
    + split; [discriminate|]. intros (R1' & Hf1 & _). discriminate.
Qed.

Lemma filter_by_known_letter_app_witness :
  exists R1,
    filter_by_known_letter [s "mama"; s "maze"; s "dodo"] "a" [1%Z] = Ok R1
    /\ filter_by_known_letter R1 "a" [3%Z] = Ok [s "mama"].
Proof.
  apply (filter_by_known_letter_app [s "mama"; s "maze"; s "dodo"] "a"
           [1%Z] [3%Z] [s "mama"]).
  reflexivity.
Defined.

(** X7. [most_common_letter] raises exactly when every letter of the words
    is in the masked word, and then it raises [IndexError]; otherwise it
    returns a letter. *)
Theorem most_common_letter_raises_iff (W : list str) (M : list ascii) :
  (most_common_letter W M = Raise IndexError
   <-> forall x, In x (concat W) -> In x M)
  /\ ((exists c, most_common_letter W M = Ok c)
      <-> exists x, In x (concat W) /\ ~ In x M).
Proof.
  split; split.
  - intros Hraise x Hx. destruct (in_dec ascii_dec x M) as [HM|HM]; [assumption|].
    destruct (most_common_letter_returns W M) as [c Hc]; [eauto|]. congruence.
  - apply most_common_letter_raises.
  - intros [c Hc]. exists c. apply most_common_letter_spec in Hc. tauto.
  - apply most_common_letter_returns.
Qed.

Lemma most_common_letter_raises_iff_witness :
  (forall x, In x (concat [s "aa"; s "a"]) -> In x (s "a_"))
  /\ exists x, In x (concat [s "ab"]) /\ ~ In x (s "a_").
Proof.
  destruct (most_common_letter_raises_iff [s "aa"; s "a"] (s "a_"))
    as [Hraise _].
  destruct (most_common_letter_raises_iff [s "ab"] (s "a_")) as [_ Hret].
  split.
  - apply Hraise. reflexivity.
  - apply Hret. exists "b"%char. reflexivity.
Defined.

(** ** Every state of a game *)

(** A property of the state before the loop that every turn of a game in
    progress keeps holds after any number of turns. *)
Lemma play_invariant (Inv : game -> Prop) word human :
  (forall st st',
      Inv st -> game_over st = None -> turn word human st = Ok st' ->
      Inv st') ->
  forall n st0 st, Inv st0 -> play n word human st0 = Ok st -> Inv st.
Proof.
  intros Hstep. induction n as [|n IH]; intros st0 st H0; simpl.
  - now intros [= <-].
  - destruct (game_over st0) eqn:Hgo; [now intros [= <-]|].
    destruct (turn word human st0) as [st1|e] eqn:Hturn; simpl;
      [|discriminate].
    apply IH. eapply Hstep; eassumption.
Qed.

Lemma turn_shape word human st st' :
  turn word human st = Ok st' ->
  exists ws m k,
    st' = check_game_over ws m k
    /\ (k = wrong_guesses st \/ k = wrong_guesses st + 1).
Proof.
  intros Hturn. apply turn_inv in Hturn
    as (letter & _ & [(_ & ws & m & _ & _ & ->)|(_ & ->)]); eauto 7.
Qed.

Lemma check_game_over_Failed ws m k :
  Failed (check_game_over ws m k) <-> 6 <= k.
Proof.
  unfold Failed. rewrite game_over_check_game_over.
  destruct (Nat.leb_spec 6 k); [tauto|].
  split; [|lia]. destruct (length ws =? 1); discriminate.
Qed.

Lemma check_game_over_result ws m k :
  (Solved (check_game_over ws m k) /\ k < 6 /\ length ws = 1
   /\ masked_word (check_game_over ws m k) = nth 0 ws [])
  \/ (~ Solved (check_game_over ws m k)
      /\ masked_word (check_game_over ws m k) = m).
Proof.
  unfold Solved, check_game_over. rewrite max_wrong_guesses.
  destruct (Nat.leb_spec 6 k); simpl.
  - right. split; [discriminate|reflexivity].
  - destruct (Nat.eqb_spec (length ws) 1); simpl.
    + left. auto.
    + right. split; [discriminate|reflexivity].
Qed.

Lemma check_game_over_running ws m k :
  game_over (check_game_over ws m k) = None ->
  k < 6 /\ check_game_over ws m k = mkGame ws m k None.
Proof.
  destruct (check_game_over_cases ws m k)
    as [[_ Hf]|[(_ & _ & Hs)|(Hk & _ & Heq)]].
  - unfold Failed in Hf. congruence.
  - unfold Solved in Hs. congruence.
  - auto.
Qed.

Lemma print_screen_returns m k message :
  (exists lines, print_screen m k message = Ok lines) <-> k <= 6.
Proof.
  unfold print_screen. rewrite getitem_nat.
  destruct (nth_error HANGMEN k) as [art|] eqn:Hnth; simpl.
  - split; [|eauto]. intros _.
    assert (k < length HANGMEN) by (apply nth_error_Some; congruence).
    change (length HANGMEN) with 7 in *. lia.
  - apply nth_error_None in Hnth. change (length HANGMEN) with 7 in *.
    split; [intros [lines H]; discriminate|lia].
Qed.

(** X8. In every state of a game, whatever the replies, the wrong-guess
    counter is at most 6, it is 6 exactly when the game is failed, and
    [print_screen] finds its gallows stage: [HANGMEN[wrong_guesses]] is in
    range. *)
Theorem wrong_guesses_in_range (vocabulary : list str) word human n st :
  play n word human (start vocabulary word) = Ok st ->
  wrong_guesses st <= 6
  /\ (Failed st <-> wrong_guesses st = 6)
  /\ exists lines,
      print_screen (masked_word st) (wrong_guesses st) (game_over st)
      = Ok lines.
Proof.
  intros Hplay.
  assert (Hinv : (game_over st = None -> wrong_guesses st < 6)
                 /\ wrong_guesses st <= 6
                 /\ (Failed st <-> wrong_guesses st = 6)).
  { apply (play_invariant
             (fun st => (game_over st = None -> wrong_guesses st < 6)
                        /\ wrong_guesses st <= 6
                        /\ (Failed st <-> wrong_guesses st = 6))
             word human) with (n := n) (st0 := start vocabulary word);
      [| |exact Hplay].
    - intros st1 st2 (Hrun & _ & _) Hgo Hturn. specialize (Hrun Hgo).
      apply turn_shape in Hturn as (ws & m & k & -> & Hk).
      rewrite wrong_guesses_check_game_over.
      pose proof (check_game_over_Failed ws m k) as Hf.
      split; [|split].
      + intros Hnone. now apply check_game_over_running in Hnone.
      + lia.
      + rewrite Hf. lia.
    - simpl. unfold Failed. simpl. repeat split; try lia; discriminate. }
  destruct Hinv as (_ & Hle & Hf). split; [assumption|]. split; [assumption|].
  now apply print_screen_returns.
Qed.

Lemma wrong_guesses_in_range_witness :
  let vocabulary := [s "ox"; s "it"; s "up"; s "am"; s "by"; s "go"; s "he"] in
  let word := s "he" in
  exists st,
    play 6 word (expected_indices word) (start vocabulary word) = Ok st
    /\ wrong_guesses st <= 6
    /\ (Failed st <-> wrong_guesses st = 6).
Proof.
  intros vocabulary word. eexists. split; [reflexivity|].
  match goal with
  | |- wrong_guesses ?st <= 6 /\ _ =>
      destruct (wrong_guesses_in_range vocabulary word
                  (expected_indices word) 6 st) as (Hle & Hf & _);
        [reflexivity|split; assumption]
  end.
Defined.

Lemma subseq_trans {A : Type} (l1 l2 l3 : list A) :
  subseq l1 l2 -> subseq l2 l3 -> subseq l1 l3.
Proof.
  intros H12 H23. revert l1 H12.
  induction H23 as [|x l2 l3 H23 IH|x l2 l3 H23 IH]; intros l1 H12.
  - assumption.
  - inversion H12; subst.
    + constructor. now apply IH.
    + apply subseq_drop. now apply IH.
  - apply subseq_drop. now apply IH.
Qed.

(** X9. In every state of a game, whatever the replies, the candidates are
    a subsequence of the vocabulary and every candidate has the length of
    the word entered. *)
Theorem candidates_from_vocabulary (vocabulary : list str) word human n st :
  play n word human (start vocabulary word) = Ok st ->
  subseq (words st) vocabulary
  /\ Forall (fun w => length w = length word) (words st).
Proof.
  intros Hplay.
  apply (play_invariant
           (fun st => subseq (words st) vocabulary
                      /\ Forall (fun w => length w = length word) (words st))
           word human) with (n := n) (st0 := start vocabulary word);
    [| |exact Hplay].
  - intros st1 st2 [Hsub Hsize] _ Hturn.
    apply turn_words_subseq in Hturn. split.
    + eapply subseq_trans; eassumption.
    + eapply Forall_subset; [|exact Hsize].
      intros w. now apply subseq_In.
  - simpl. unfold filter_by_word_size. split; [apply filter_subseq|].
    apply Forall_forall. intros w Hw. apply filter_In in Hw as [_ Hw].
    now apply Nat.eqb_eq.
Qed.

Lemma candidates_from_vocabulary_witness :
  let vocabulary := [s "dog"; s "at"; s "cat"; s "bat"] in
  subseq [s "cat"; s "bat"] vocabulary
  /\ Forall (fun w => length w = 3) [s "cat"; s "bat"].
Proof.
  intros vocabulary.
  apply (candidates_from_vocabulary vocabulary (s "cat")
           (expected_indices (s "cat")) 2
           (mkGame [s "cat"; s "bat"] (s "_at") 0 None)).
  reflexivity.
Defined.

(** ** Games with truthful replies *)

Lemma mask_full (word : str) (R : list ascii) :
  incl word R -> mask word R = word.
Proof.
  intros Hincl. unfold mask. rewrite <- (map_id word) at 2.
  apply map_ext_in. intros ch Hch.
  apply Hincl, contains_In in Hch. now rewrite Hch.
Qed.

Lemma mask_length (word : str) (R : list ascii) :
  length (mask word R) = length word.
Proof. unfold mask. apply length_map. Qed.

Lemma mask_nth_error (word : str) (R : list ascii) (i : nat) (ch : ascii) :
  nth_error (mask word R) i = Some ch ->
  ch = "_"%char \/ nth_error word i = Some ch.
Proof.
  unfold mask. rewrite nth_error_map.
  destruct (nth_error word i) as [x|]; simpl; [|discriminate].
  destruct (contains R x); intros [= <-]; auto.
Qed.

Lemma singleton_In {A : Type} (l : list A) (x : A) :
  length l = 1 -> In x l -> l = [x].
Proof.
  destruct l as [|y [|z l]]; simpl; try discriminate.
  intros _ [->|[]]. reflexivity.
Qed.

(** What a turn with a truthful reply does to a state whose masked word
    shows the letters [R] of the secret. *)
Lemma turn_truthful word human st st' R :
  truthful word human ->
  masked_word st = mask word R ->
  turn word human st = Ok st' ->
  exists letter ws m k,
    most_common_letter (words st) (masked_word st) = Ok letter
    /\ st' = check_game_over ws m k
    /\ (forall w, In w ws -> In w (words st))
    /\ (In word (words st) -> In word ws)
    /\ ((In letter word /\ m = mask word (letter :: R)
         /\ k = wrong_guesses st)
        \/ (~ In letter word /\ m = mask word R
            /\ k = wrong_guesses st + 1
            /\ ws = filter_by_excluded_letter (words st) letter)).
Proof.
  intros Htruth Hmask Hturn.
  apply turn_inv in Hturn
    as (letter & Hletter & [(Hh & ws & m & Hf & Hr & ->)|(Hh & ->)]);
    rewrite Htruth in *.
  - exists letter, ws, m, (wrong_guesses st).
    split; [assumption|]. split; [reflexivity|]. split; [|split].
    + intros w Hw. eapply subseq_In; [|exact Hw].
      eapply filter_by_known_letter_subseq; eassumption.
    + intros Hin. eapply filter_by_known_letter_keeps;
        [eassumption|assumption|apply all_at_expected_indices].
    + left. rewrite Hmask, reveal_mask in Hr. injection Hr as <-.
      split; [|auto].
      destruct (in_dec ascii_dec letter word) as [Hin|Hout]; [assumption|].
      now apply expected_indices_nil in Hout.
  - exists letter, (filter_by_excluded_letter (words st) letter),
      (masked_word st), (wrong_guesses st + 1).
    apply expected_indices_nil in Hh.
    split; [assumption|]. split; [reflexivity|]. split; [|split].
    + intros w Hw. now apply filter_by_excluded_letter_In in Hw.
    + intros Hin. now apply filter_by_excluded_letter_In.
    + right. auto.
Qed.

(** The invariant of a truthful game on a secret of the vocabulary. *)
Lemma play_truthful_invariant (vocabulary : list str) word human n st :
  In word vocabulary -> truthful word human ->
  play n word human (start vocabulary word) = Ok st ->
  In word (words st)
  /\ (exists R, incl R word /\ masked_word st = mask word R)
  /\ (Solved st -> words st = [word] /\ masked_word st = word).
Proof.
  intros Hin Htruth Hplay.
  apply (play_invariant
           (fun st => In word (words st)
                      /\ (exists R, incl R word /\ masked_word st = mask word R)
                      /\ (Solved st -> words st = [word]
                                       /\ masked_word st = word))
           word human) with (n := n) (st0 := start vocabulary word);
    [| |exact Hplay].
  - intros st1 st2 (Hsec & (R & Hincl & Hmask) & _) _ Hturn.
    destruct (turn_truthful word human st1 st2 R Htruth Hmask Hturn)
      as (letter & ws & m & k & _ & -> & _ & Hkeep & Hcases).
    specialize (Hkeep Hsec).
    assert (Hm : exists R', incl R' word /\ m = mask word R').
    { destruct Hcases as [(Hl & -> & _)|(_ & -> & _)].
      - exists (letter :: R). split; [|reflexivity].
        intros x [<-|Hx]; auto.
      - exists R. auto. }
    rewrite words_check_game_over. split; [assumption|].
    destruct (check_game_over_result ws m k)
      as [(Hs & _ & Hone & Hshown)|(Hns & Hshown)]; rewrite Hshown.
    + rewrite (singleton_In ws word Hone Hkeep). simpl. split.
      * exists word. split; [apply incl_refl|].
        symmetry. apply mask_full, incl_refl.
      * auto.
    + split; [assumption|]. intros Hs. contradiction.
  - split; [now apply start_secret|]. split.
    + exists []. split; [intros x []|]. simpl. symmetry. apply mask_nil.
    + unfold Solved. simpl. discriminate.
Qed.

(** X10. When a game with truthful replies on a secret of the vocabulary
    is solved, the one candidate left is the secret, and the masked word
    shown is the secret. *)
Theorem solved_shows_the_secret (vocabulary : list str) word human n st :
  In word vocabulary -> truthful word human ->
  play n word human (start vocabulary word) = Ok st ->
  Solved st ->
  words st = [word] /\ masked_word st = word.
Proof.
  intros Hin Htruth Hplay Hs.
  now apply (play_truthful_invariant vocabulary word human n st).
Qed.

Lemma solved_shows_the_secret_witness :
  let vocabulary := [s "dog"; s "cat"; s "bat"] in
  let word := s "bat" in
  exists st,
    play 3 word (expected_indices word) (start vocabulary word) = Ok st
    /\ Solved st /\ words st = [word] /\ masked_word st = word.
Proof.
  intros vocabulary word. eexists. split; [reflexivity|].
  split; [reflexivity|].
  apply (solved_shows_the_secret vocabulary word (expected_indices word) 3).
  - simpl. auto.
  - intros letter. reflexivity.
  - reflexivity.
  - reflexivity.
Defined.

(** X11. In every state of a game with truthful replies on a secret of
    the vocabulary, the masked word is the secret with some of its
    letters shown at all their positions and [_] elsewhere: it has the
    length of the secret and no position shows a wrong letter. *)
Theorem masked_word_shows_the_secret (vocabulary : list str) word human n st :
  In word vocabulary -> truthful word human ->
  play n word human (start vocabulary word) = Ok st ->
  (exists R, incl R word /\ masked_word st = mask word R)
  /\ length (masked_word st) = length word
  /\ (forall i ch, nth_error (masked_word st) i = Some ch ->
                   ch = "_"%char \/ nth_error word i = Some ch).
Proof.
  intros Hin Htruth Hplay.
  destruct (play_truthful_invariant vocabulary word human n st Hin Htruth Hplay)
    as (_ & (R & Hincl & Hmask) & _).
  split; [eauto|]. rewrite Hmask. split.
  - apply mask_length.
  - intros i ch. apply mask_nth_error.
Qed.

Lemma masked_word_shows_the_secret_witness :
  let vocabulary := [s "mama"; s "papa"; s "dodo"] in
  let word := s "mama" in
  exists st,
    play 1 word (expected_indices word) (start vocabulary word) = Ok st
    /\ masked_word st = s "_a_a"
    /\ exists R, incl R word /\ masked_word st = mask word R.
Proof.
  intros vocabulary word. eexists. split; [reflexivity|].
  split; [reflexivity|].
  apply (masked_word_shows_the_secret vocabulary word
           (expected_indices word) 1).
  - simpl. auto.
  - intros letter. reflexivity.
  - reflexivity.
Defined.

(** ** The letters asked *)

Lemma asked_over (n : nat) word human st (message : string) :
  game_over st = Some message -> asked n word human st = [].
Proof. intros Hgo. destruct n; simpl; [reflexivity|]. now rewrite Hgo. Qed.

Lemma concat_subset (ws W : list str) (g : ascii) :
  (forall w, In w ws -> In w W) -> In g (concat ws) -> In g (concat W).
Proof.
  intros Hsub Hin. apply in_concat in Hin as (w & Hw & Hg).
  apply in_concat. exists w. auto.
Qed.

(** The letters asked from a state on are distinct, and none of them was
    revealed or excluded before. *)
Lemma asked_fresh word human :
  truthful word human ->
  forall n st R G,
    masked_word st = mask word R -> incl R word ->
    (forall g, In g G -> In g R \/ ~ In g (concat (words st))) ->
    NoDup (asked n word human st)
    /\ (forall x, In x (asked n word human st) -> ~ In x G).
Proof.
  intros Htruth.
  assert (Hnone : forall G : list ascii,
             NoDup (@nil ascii) /\ (forall x, In x [] -> ~ In x G)).
  { intros G. split; [constructor|intros x []]. }
  induction n as [|n IH]; intros st R G Hmask Hincl HG; simpl; [apply Hnone|].
  destruct (game_over st); [apply Hnone|].
  destruct (most_common_letter (words st) (masked_word st)) as [letter|e]
    eqn:Hl; [|apply Hnone].
  destruct (most_common_letter_spec _ _ _ Hl) as (HlM & HlW & _).
  assert (HlG : ~ In letter G).
  { intros Hg. destruct (HG letter Hg) as [HR|Hout]; [|contradiction].
    apply HlM. rewrite Hmask. apply mask_reveals; auto. }
  assert (Hone : NoDup [letter] /\ (forall x, In x [letter] -> ~ In x G)).
  { split.
    - constructor; [intros []|constructor].
    - intros x [<-|[]]. assumption. }
  destruct (turn word human st) as [st'|e] eqn:Hturn; [|exact Hone].
  destruct (turn_truthful word human st st' R Htruth Hmask Hturn)
    as (letter' & ws & m & k & Hl' & -> & Hsub & _ & Hcases).
  assert (letter' = letter) by congruence. subst letter'.
  destruct (game_over (check_game_over ws m k)) as [message|] eqn:Hgo.
  { rewrite (asked_over n _ _ _ message Hgo). exact Hone. }
  apply check_game_over_running in Hgo as [_ ->].
  assert (Hnext : exists R',
             m = mask word R' /\ incl R' word
             /\ forall g, In g (letter :: G) ->
                          In g R' \/ ~ In g (concat ws)).
  { destruct Hcases as [(Hlw & -> & _)|(Hlw & -> & _ & ->)].
    - exists (letter :: R). split; [reflexivity|]. split.
      + intros x [<-|Hx]; auto.
      + intros g [<-|Hg]; [left; now left|].
        destruct (HG g Hg) as [HR|Hout]; [left; now right|].
        right. intros Hin. apply Hout. eapply concat_subset; eassumption.
    - exists R. split; [reflexivity|]. split; [assumption|].
      intros g [<-|Hg].
      + right. intros Hin. apply in_concat in Hin as (w & Hw & Hgw).
        apply filter_by_excluded_letter_In in Hw as [_ Hn]. contradiction.
      + destruct (HG g Hg) as [HR|Hout]; [now left|].
        right. intros Hin. apply Hout. eapply concat_subset; eassumption. }
  destruct Hnext as (R' & Hm & Hincl' & HG').
  destruct (IH (mkGame ws m k None) R' (letter :: G) Hm Hincl' HG')
    as [Hnd Hfresh].
  split.
  - constructor; [|assumption]. intros Hin. apply (Hfresh letter Hin). now left.
  - intros x [<-|Hx]; [assumption|].
    intros HxG. apply (Hfresh x Hx). now right.
Qed.

(** X12. In a game with truthful replies no letter is asked twice. *)
Theorem no_letter_asked_twice (vocabulary : list str) word human n :
  truthful word human ->
  NoDup (asked n word human (start vocabulary word)).
Proof.
  intros Htruth.
  apply (asked_fresh word human Htruth n (start vocabulary word) [] []).
  - simpl. symmetry. apply mask_nil.
  - intros x [].
  - intros g [].
Qed.

Lemma no_letter_asked_twice_witness :
  let vocabulary := [s "dog"; s "cat"; s "bat"] in
  let word := s "bat" in
  asked 5 word (expected_indices word) (start vocabulary word)
  = [ "a"; "t"; "c"]%char
  /\ NoDup (asked 5 word (expected_indices word) (start vocabulary word)).
Proof.
  intros vocabulary word. split; [reflexivity|].
  apply (no_letter_asked_twice vocabulary word (expected_indices word) 5).
  intros letter. reflexivity.
Defined.

Lemma wrong_guesses_asked word human :
  truthful word human ->
  forall n st0 st R,
    masked_word st0 = mask word R ->
    play n word human st0 = Ok st ->
    wrong_guesses st
    = wrong_guesses st0
      + length (filter (fun c => negb (contains word c))
                  (asked n word human st0)).
Proof.
  intros Htruth. induction n as [|n IH]; intros st0 st R Hmask; simpl.
  - intros [= <-]. lia.
  - destruct (game_over st0); [intros [= <-]; simpl; lia|].
    destruct (turn word human st0) as [st1|e] eqn:Hturn; simpl;
      [|discriminate].
    destruct (turn_truthful word human st0 st1 R Htruth Hmask Hturn)
      as (letter & ws & m & k & -> & -> & _ & _ & Hcases).
    intros Hplay. simpl.
    assert (Hk : k = wrong_guesses st0
                     + (if negb (contains word letter) then 1 else 0)
                 /\ exists R', m = mask word R').
    { destruct Hcases as [(Hlw & -> & ->)|(Hlw & -> & -> & _)].
      - apply contains_In in Hlw. rewrite Hlw. simpl. split; [lia|eauto].
      - apply not_contains in Hlw. rewrite Hlw. split; [lia|eauto]. }
    destruct Hk as [Hk (R' & Hm)].
    destruct (game_over (check_game_over ws m k)) as [message|] eqn:Hgo.
    + rewrite (play_over n _ _ _ message Hgo) in Hplay.
      injection Hplay as <-.
      rewrite (asked_over n _ _ _ message Hgo).
      rewrite wrong_guesses_check_game_over.
      destruct (negb (contains word letter)); simpl; lia.
    + apply check_game_over_running in Hgo as [_ Heq]. rewrite Heq in *.
      rewrite (IH (mkGame ws m k None) st R' Hm Hplay). simpl.
      destruct (negb (contains word letter)); simpl; lia.
Qed.

(** X13. In a game with truthful replies the wrong-guess counter is the
    number of letters asked so far that the secret does not contain. *)
Theorem wrong_guesses_count_absent_letters (vocabulary : list str) word
  human n st :
  truthful word human ->
  play n word human (start vocabulary word) = Ok st ->
  wrong_guesses st
  = length (filter (fun c => negb (contains word c))
              (asked n word human (start vocabulary word))).
Proof.
  intros Htruth Hplay.
  rewrite (wrong_guesses_asked word human Htruth n (start vocabulary word)
             st []);
    [reflexivity| |exact Hplay].
  simpl. symmetry. apply mask_nil.
Qed.

Lemma wrong_guesses_count_absent_letters_witness :
  let vocabulary := [s "dog"; s "cow"; s "bat"] in
  let word := s "bat" in
  exists st,
    play 2 word (expected_indices word) (start vocabulary word) = Ok st
    /\ wrong_guesses st = 1
    /\ wrong_guesses st
       = length (filter (fun c => negb (contains word c))
                   (asked 2 word (expected_indices word)
                      (start vocabulary word))).
Proof.
  intros vocabulary word. eexists. split; [reflexivity|].
  split; [reflexivity|].
  apply (wrong_guesses_count_absent_letters vocabulary word
           (expected_indices word) 2).
  - intros letter. reflexivity.
  - reflexivity.
Defined.

(** ** How long a game lasts *)

Lemma in_progress_distinct word R st :
  in_progress word R st ->
  length R + wrong_guesses st < length (nodup ascii_dec word) + 5.
Proof.
  intros Hip. destruct (ip_open _ _ _ Hip) as (ch & Hch & HchR).
  assert (length (ch :: R) <= length (nodup ascii_dec word)).
  { apply NoDup_incl_length.
    - constructor; [assumption|apply (ip_nodup _ _ _ Hip)].
    - intros x [<-|Hx]; apply nodup_In; [assumption|].
      now apply (ip_incl _ _ _ Hip). }
  pose proof (ip_wrong _ _ _ Hip). simpl in *. lia.
Qed.

Lemma play_reaches_within word human :
  ~ In "_"%char word -> truthful word human ->
  forall k R st,
    in_progress word R st ->
    length (nodup ascii_dec word) + 5 <= k + (length R + wrong_guesses st) ->
    exists st', play k word human st = Ok st' /\ (Solved st' \/ Failed st').
Proof.
  intros Hunder Htruth. induction k as [|k IH]; intros R st Hip Hk.
  - pose proof (in_progress_distinct word R st Hip). lia.
  - simpl. rewrite (ip_running _ _ _ Hip).
    destruct (turn_progress_unmasked word human R st Hunder Htruth Hip)
      as (st' & -> & Hnext). cbn [bind].
    destruct Hnext as [Hs|[Hf|(R' & Hip' & Hmeasure)]].
    + exists st'. split; [eapply play_over; exact Hs|auto].
    + exists st'. split; [eapply play_over; exact Hf|auto].
    + apply (IH R' st' Hip'). lia.
Qed.

(** X14. Whatever characters other than [_] the secret is made of: when
    it is not empty and occurs exactly once in the vocabulary, a game with
    truthful replies is solved or failed within as many turns as the
    secret has distinct characters, plus 5. *)
Theorem game_over_within_distinct_letters (vocabulary : list str) (word : str)
  (human : ascii -> list Z) :
  count_occ str_dec vocabulary word = 1 ->
  word <> [] ->
  ~ In "_"%char word ->
  truthful word human ->
  exists st,
    play (length (nodup ascii_dec word) + 5) word human
      (start vocabulary word) = Ok st
    /\ (Solved st \/ Failed st).
Proof.
  intros Honce Hne Hunder Htruth.
  apply (play_reaches_within word human Hunder Htruth _ []).
  - now apply start_in_progress.
  - simpl. lia.
Qed.

Lemma game_over_within_distinct_letters_witness :
  let vocabulary := [s "b"; s "c"; s "d"; s "e"; s "f"; s "g"; s "a"] in
  let word := s "a" in
  length (nodup ascii_dec word) + 5 = 6
  /\ (exists st,
        play 5 word (expected_indices word) (start vocabulary word) = Ok st
        /\ game_over st = None)
  /\ exists st,
      play 6 word (expected_indices word) (start vocabulary word) = Ok st
      /\ (Solved st \/ Failed st).
Proof.
  intros vocabulary word. split; [reflexivity|]. split.
  - eexists. split; reflexivity.
  - apply (game_over_within_distinct_letters vocabulary word
             (expected_indices word)).
    + reflexivity.
    + discriminate.
    + simpl. intros [H|[]]. discriminate.
    + intros letter. reflexivity.
Defined.

(** X15. When the secret is the only word of its length in the
    vocabulary and has a character other than [_], the first turn solves
    the game without a wrong guess. *)
Theorem only_candidate_solved_at_once (vocabulary : list str) (word : str)
  (human : ascii -> list Z) :
  filter_by_word_size vocabulary (length word) = [word] ->
  (exists ch, In ch word /\ ch <> "_"%char) ->
  truthful word human ->
  play 1 word human (start vocabulary word)
  = Ok (mkGame [word] word 0 (Some "I found your word!")).
Proof.
  intros Honly (ch & Hch & Hne) Htruth.
  assert (Hstart : start vocabulary word
                   = mkGame [word] (mask word []) 0 None).
  { unfold start. now rewrite Honly, mask_nil. }
  rewrite Hstart. set (st0 := mkGame [word] (mask word []) 0 None).
  change (play 1 word human st0) with (st' <- turn word human st0 ;; Ok st').
  destruct (most_common_letter_returns [word] (mask word []))
    as [letter Hletter].
  { exists ch. split; [simpl; rewrite app_nil_r; assumption|].
    intros Hin. apply mask_In in Hin as [[]|Heq]. contradiction. }
  destruct (most_common_letter_spec _ _ _ Hletter) as (_ & Hlw & _).
  simpl in Hlw. rewrite app_nil_r in Hlw.
  assert (Hh : human letter <> []).
  { rewrite Htruth. intros Hnil. now apply expected_indices_nil in Hnil. }
  rewrite (turn_known word human st0 letter Hletter Hh), Htruth.
  unfold st0. cbn [words masked_word wrong_guesses].
  rewrite (filter_by_known_letter_expected [word] word letter)
    by (constructor; [reflexivity|constructor]).
  cbn [filter]. rewrite has_at_positions. cbn [bind].
  rewrite Htruth, reveal_mask. cbn [bind].
  unfold check_game_over. rewrite max_wrong_guesses. reflexivity.
Qed.

Lemma only_candidate_solved_at_once_witness :
  let vocabulary := [s "cat"; s "zebra"; s "dog"] in
  let word := s "zebra" in
  play 1 word (expected_indices word) (start vocabulary word)
  = Ok (mkGame [word] word 0 (Some "I found your word!")).
Proof.
  intros vocabulary word.
  apply (only_candidate_solved_at_once vocabulary word (expected_indices word)).
  - reflexivity.
  - exists "z"%char. split; [simpl; auto|discriminate].
  - intros letter. reflexivity.
Defined.

(** ** Reading the replies *)

Section GetInputFacts.

Context {A : Type} (eq_dec : forall x y : A, {x = y} + {x <> y}).

Lemma get_input_loop_returns (convert : str -> option A) (valid : A -> bool)
  (replies : list str) :
  forall prompt value prompts rest,
    get_input_loop prompt convert valid replies = Some (value, prompts, rest) ->
    exists refused reply,
      replies = refused ++ reply :: rest
      /\ convert reply = Some value
      /\ valid value = true
      /\ Forall (rejected convert valid) refused
      /\ prompts = (prompt ++ ": ")%string
                   :: repeat "Invalid input. Try again: " (length refused).
Proof.
  induction replies as [|reply replies IH]; intros prompt value prompts rest;
    simpl; [discriminate|].
  assert (Hagain :
      match get_input_loop "Invalid input. Try again" convert valid replies with
      | Some (value, prompts, unread) =>
          Some (value, (prompt ++ ": ")%string :: prompts, unread)
      | None => None
      end = Some (value, prompts, rest) ->
      rejected convert valid reply ->
      exists refused reply0,
        reply :: replies = refused ++ reply0 :: rest
        /\ convert reply0 = Some value
        /\ valid value = true
        /\ Forall (rejected convert valid) refused
        /\ prompts = (prompt ++ ": ")%string
                     :: repeat "Invalid input. Try again: " (length refused)).
  { destruct (get_input_loop "Invalid input. Try again" convert valid replies)
      as [[[v ps] r]|] eqn:Hloop; [|discriminate].
    intros [= -> <- ->] Hrej.
    destruct (IH _ _ _ _ Hloop) as (refused & reply0 & -> & Hc & Hv & Hall & ->).
    exists (reply :: refused), reply0. repeat split; auto. }
  destruct (convert reply) as [v|] eqn:Hconv.
  - destruct (valid v) eqn:Hvalid.
    + intros [= -> <- ->]. exists [], reply. repeat split; auto.
    + intros H. apply Hagain; [exact H|]. unfold rejected. now rewrite Hconv.
  - intros H. apply Hagain; [exact H|]. unfold rejected. now rewrite Hconv.
Qed.

Lemma get_input_loop_total (convert : str -> option A) (valid : A -> bool)
  (replies : list str) :
  forall prompt,
    (exists reply value,
        In reply replies /\ convert reply = Some value /\ valid value = true) ->
    exists result, get_input_loop prompt convert valid replies = Some result.
Proof.
  induction replies as [|reply replies IH]; intros prompt (r & v & Hin & Hc & Hv);
    [destruct Hin|].
  simpl. destruct (convert reply) as [v0|] eqn:Hconv.
  - destruct (valid v0) eqn:Hvalid; [eauto|].
    destruct Hin as [->|Hin]; [congruence|].
    destruct (IH "Invalid input. Try again") as [[[v1 ps] rest] ->]; eauto.
  - destruct Hin as [->|Hin]; [congruence|].
    destruct (IH "Invalid input. Try again") as [[[v1 ps] rest] ->]; eauto.
Qed.

End GetInputFacts.

(** X16. [get_input] returns the conversion of the first reply that
    converts and passes the validation: every reply read before it was
    refused, each refusal was answered by the prompt
    [Invalid input. Try again], and the replies after it are left unread.
    It returns whenever some reply is acceptable. *)
Theorem get_input_first_acceptable {A : Type}
  (eq_dec : forall x y : A, {x = y} + {x <> y}) prompt convert validate
  choices replies :
  (forall value prompts rest,
      get_input eq_dec prompt convert validate choices replies
      = Some (value, prompts, rest) ->
      exists refused reply,
        replies = refused ++ reply :: rest
        /\ convert reply = Some value
        /\ prepare_validate eq_dec validate choices value = true
        /\ Forall (rejected convert (prepare_validate eq_dec validate choices))
             refused
        /\ prompts = (prompt ++ ": ")%string
                     :: repeat "Invalid input. Try again: " (length refused))
  /\
  ((exists reply value,
       In reply replies /\ convert reply = Some value
       /\ prepare_validate eq_dec validate choices value = true) ->
   exists result,
     get_input eq_dec prompt convert validate choices replies = Some result).
Proof.
  unfold get_input. split.
  - intros value prompts rest. apply get_input_loop_returns.
  - apply get_input_loop_total.
Qed.

Lemma get_input_first_acceptable_witness :
  exists refused reply,
    [s "Dog"; s "cow"; s "cat"; s "dog"] = refused ++ reply :: [s "dog"]
    /\ Some reply = Some (s "cat")
    /\ Forall (rejected Some
                 (prepare_validate str_dec None (Some [s "cat"; s "dog"])))
         refused.
Proof.
  destruct (get_input_first_acceptable str_dec "Please enter a word" Some None
              (Some [s "cat"; s "dog"])
              [s "Dog"; s "cow"; s "cat"; s "dog"]) as [Hret _].
  destruct (Hret (s "cat")
              ["Please enter a word: "; "Invalid input. Try again: ";
               "Invalid input. Try again: "]
              [s "dog"] eq_refl)
    as (refused & reply & Heq & Hc & _ & Hall & _).
  exists refused, reply. auto.
Defined.

(** X17. The prompt for the indices returns only the positions the letter
    has in the word entered: with [choices = [expected_indices]] every
    other reply is refused. *)
Theorem get_input_indices_truthful (int : str -> option Z) (word : str)
  (letter : ascii) prompt replies value prompts rest :
  get_input (list_eq_dec Z.eq_dec) prompt (parse_ints int) None
    (Some [expected_indices word letter]) replies
  = Some (value, prompts, rest) ->
  value = expected_indices word letter.
Proof.
  intros Hget. apply get_input_loop_returns in Hget
    as (_ & _ & _ & _ & Hvalid & _).
  simpl in Hvalid.
  destruct (list_eq_dec Z.eq_dec (expected_indices word letter) value)
    as [Heq|Hne]; [now symmetry|discriminate].
Qed.

Lemma get_input_indices_truthful_witness :
  let int := fun token : str =>
    option_map Z.of_uint
      (DecimalString.NilEmpty.uint_of_string (string_of_list_ascii token)) in
  [1; 3]%Z = expected_indices (s "mama") "a".
Proof.
  intros int.
  apply (get_input_indices_truthful int (s "mama") "a" "Enter its indices"
           [s "1"; s "x"; s "3 1"; s "0"] [1; 3]%Z
           ["Enter its indices: "; "Invalid input. Try again: ";
            "Invalid input. Try again: "]
           [s "0"]).
  reflexivity.
Defined.

(** X18. With an empty vocabulary the prompt for the word accepts whatever
    is entered first, since an empty [choices] validates nothing, and the
    game then raises [IndexError] in its first turn. *)
Theorem empty_vocabulary_accepts_any_word prompt (word : str)
  (rest : list str) (human : ascii -> list Z) (n : nat) :
  get_input str_dec prompt Some None (Some []) (word :: rest)
  = Some (word, [(prompt ++ ": ")%string], rest)
  /\ play (S n) word human (start [] word) = Raise IndexError.
Proof.
  split; [reflexivity|].
  simpl. unfold turn. simpl words.
  rewrite (most_common_letter_raises [] _); [reflexivity|].
  intros x [].
Qed.

(** ** Parsing the indices *)

Lemma insert_asc_perm (x : Z) (l : list Z) :
  Permutation (x :: l) (insert_asc x l).
Proof.
  induction l as [|y l IH]; simpl; [reflexivity|].
  destruct (x <=? y)%Z; [reflexivity|].
  rewrite perm_swap. now constructor.
Qed.

Lemma sorted_perm (l : list Z) : Permutation l (sorted l).
Proof.
  induction l as [|x l IH]; simpl; [constructor|].
  rewrite <- insert_asc_perm. now constructor.
Qed.

Lemma HdRel_In (x : Z) (l : list Z) :
  (forall y, In y l -> (x <= y)%Z) -> HdRel Z.le x l.
Proof. destruct l; constructor. apply H. now left. Qed.

Lemma insert_asc_Sorted (x : Z) (l : list Z) :
  Sorted Z.le l -> Sorted Z.le (insert_asc x l).
Proof.
  induction l as [|y l IH]; intros Hs; simpl.
  - repeat constructor.
  - destruct (Z.leb_spec x y).
    + constructor; [assumption|]. now constructor.
    + apply Sorted_inv in Hs as [Hs Hhd]. constructor; [now apply IH|].
      apply HdRel_In. intros z Hz.
      apply (Permutation_in z (Permutation_sym (insert_asc_perm x l))) in Hz.
      destruct Hz as [<-|Hz]; [lia|].
      apply Sorted_StronglySorted in Hs; [|intros a b c; apply Z.le_trans].
      assert (Hss : StronglySorted Z.le (y :: l)).
      { apply Sorted_StronglySorted; [intros a b c; apply Z.le_trans|].
        constructor; [now apply StronglySorted_Sorted|assumption]. }
      apply StronglySorted_inv in Hss as [_ Hall].
      rewrite Forall_forall in Hall. now apply Hall.
Qed.

Lemma sorted_Sorted (l : list Z) : Sorted Z.le (sorted l).
Proof.
  induction l as [|x l IH]; simpl; [constructor|].
  now apply insert_asc_Sorted.
Qed.

Lemma insert_asc_comm (x y : Z) (l : list Z) :
  insert_asc x (insert_asc y l) = insert_asc y (insert_asc x l).
Proof.
  induction l as [|z l IH]; simpl.
  - destruct (Z.leb_spec x y), (Z.leb_spec y x); try reflexivity; try lia.
    assert (x = y) by lia. now subst.
  - destruct (Z.leb_spec y z), (Z.leb_spec x z); simpl.
    + destruct (Z.leb_spec x y), (Z.leb_spec y x); simpl;
        try (destruct (Z.leb_spec x z); [|lia]);
        try (destruct (Z.leb_spec y z); [|lia]);
        try reflexivity; try lia.
      assert (x = y) by lia. now subst.
    + destruct (Z.leb_spec x y); [lia|].
      simpl. destruct (Z.leb_spec x z); [lia|].
      destruct (Z.leb_spec y z); [|lia]. reflexivity.
    + destruct (Z.leb_spec y x); [lia|].
      simpl. destruct (Z.leb_spec y z); [lia|].
      destruct (Z.leb_spec x z); [|lia]. reflexivity.
    + destruct (Z.leb_spec x z); [lia|].
      destruct (Z.leb_spec y z); [lia|]. now rewrite IH.
Qed.

Lemma sorted_Permutation (l1 l2 : list Z) :
  Permutation l1 l2 -> sorted l1 = sorted l2.
Proof.
  induction 1; simpl.
  - reflexivity.
  - now f_equal.
  - apply insert_asc_comm.
  - congruence.
Qed.

Lemma sorted_id (l : list Z) : Sorted Z.le l -> sorted l = l.
Proof.
  induction l as [|x l IH]; intros Hs; simpl; [reflexivity|].
  apply Sorted_inv in Hs as [Hs Hhd]. rewrite (IH Hs).
  destruct Hhd as [|y l Hxy]; simpl; [reflexivity|].
  apply Z.leb_le in Hxy. now rewrite Hxy.
Qed.

Lemma positions_from_Sorted (n : nat) (w : str) (c : ascii) :
  Sorted Z.le (map Z.of_nat (positions_from n w c)).
Proof.
  revert n. induction w as [|x w IH]; intros n; simpl; [constructor|].
  destruct (Ascii.eqb x c); [|apply IH].
  simpl. constructor; [apply IH|]. apply HdRel_In.
  intros y Hy. apply in_map_iff in Hy as (i & <- & Hi).
  apply positions_from_In in Hi as (j & -> & _). lia.
Qed.

Lemma expected_indices_Sorted (word : str) (c : ascii) :
  Sorted Z.le (expected_indices word c).
Proof.
  rewrite expected_indices_positions. apply positions_from_Sorted.
Qed.

Lemma split_from_blank (reply : str) :
  forallb isspace reply = true -> split_from [] reply = [].
Proof.
  induction reply as [|ch reply IH]; simpl; [reflexivity|].
  intros H. apply andb_true_iff in H as [Hch Hrest].
  rewrite Hch. now apply IH.
Qed.

(** X19. What [parse_ints] returns is in ascending order and holds the
    integers of the whitespace-separated tokens of the reply, each as
    often as it was entered. *)
Theorem parse_ints_sorted (int : str -> option Z) (reply : str)
  (l : list Z) :
  parse_ints int reply = Some l ->
  StronglySorted Z.le l
  /\ exists vals, map_int int (split reply) = Some vals /\ Permutation vals l.
Proof.
  unfold parse_ints.
  destruct (map_int int (split reply)) as [vals|]; [|discriminate].
  intros [= <-]. split.
  - apply Sorted_StronglySorted; [intros a b c; apply Z.le_trans|].
    apply sorted_Sorted.
  - exists vals. split; [reflexivity|apply sorted_perm].
Qed.

Lemma parse_ints_sorted_witness :
  let int := fun token : str =>
    option_map Z.of_uint
      (DecimalString.NilEmpty.uint_of_string (string_of_list_ascii token)) in
  parse_ints int (s " 3 1  2") = Some [1; 2; 3]%Z
  /\ StronglySorted Z.le [1; 2; 3]%Z.
Proof.
  intros int. split; [reflexivity|].
  apply (parse_ints_sorted int (s " 3 1  2") [1; 2; 3]%Z). reflexivity.
Defined.

(** X20. When the letter is not in the word entered, a reply of
    whitespace only, such as hitting ENTER, is accepted at once as the
    empty index list. *)
Theorem blank_reply_means_absent (int : str -> option Z) (word : str)
  (letter : ascii) prompt (reply : str) (rest : list str) :
  ~ In letter word ->
  forallb isspace reply = true ->
  parse_ints int reply = Some []
  /\ get_input (list_eq_dec Z.eq_dec) prompt (parse_ints int) None
       (Some [expected_indices word letter]) (reply :: rest)
     = Some ([], [(prompt ++ ": ")%string], rest).
Proof.
  intros Habsent Hblank.
  assert (Hparse : parse_ints int reply = Some []).
  { unfold parse_ints, split. now rewrite split_from_blank. }
  split; [assumption|].
  unfold get_input. simpl. rewrite Hparse.
  apply expected_indices_nil in Habsent. rewrite Habsent.
  destruct (list_eq_dec Z.eq_dec [] []) as [_|Hne]; [reflexivity|congruence].
Qed.

Lemma blank_reply_means_absent_witness :
  let int := fun token : str =>
    option_map Z.of_uint
      (DecimalString.NilEmpty.uint_of_string (string_of_list_ascii token)) in
  get_input (list_eq_dec Z.eq_dec) "Else hit ENTER" (parse_ints int) None
    (Some [expected_indices (s "cat") "z"]) [s "  "; s "1"]
  = Some ([], ["Else hit ENTER: "], [s "1"]).
Proof.
  intros int.
  apply (blank_reply_means_absent int (s "cat") "z" "Else hit ENTER" (s "  ")).
  - simpl. intros [H|[H|[H|[]]]]; discriminate.
  - reflexivity.
Defined.

(** X21. A reply parses to the positions of the letter exactly when the
    integers of its tokens are these positions in some order: the order
    in which the indices are entered does not matter. *)
Theorem parse_ints_accepts_any_order (int : str -> option Z) (word : str)
  (letter : ascii) (reply : str) :
  parse_ints int reply = Some (expected_indices word letter)
  <-> exists vals,
      map_int int (split reply) = Some vals
      /\ Permutation vals (expected_indices word letter).
Proof.
  unfold parse_ints. split.
  - destruct (map_int int (split reply)) as [vals|]; [|discriminate].
    intros [= <-]. exists vals. split; [reflexivity|apply sorted_perm].
  - intros (vals & -> & Hperm). f_equal.
    rewrite (sorted_Permutation _ _ Hperm).
    apply sorted_id, expected_indices_Sorted.
Qed.

Lemma parse_ints_accepts_any_order_witness :
  let int := fun token : str =>
    option_map Z.of_uint
      (DecimalString.NilEmpty.uint_of_string (string_of_list_ascii token)) in
  parse_ints int (s "3 1") = Some (expected_indices (s "mama") "a").
Proof.
  intros int.
  apply (proj2 (parse_ints_accepts_any_order int (s "mama") "a" (s "3 1"))).
  exists [3; 1]%Z. split; [reflexivity|apply perm_swap].
Defined.
